(** * A shallow embedding of the crawler (crawler.py)

    The development follows the Python source function by function:

    - [Py]       the [str] methods the crawler relies on;
    - [Urllib]   the parts of CPython's [urllib.parse] (version 3.11) that
                 [urlparse] and [urljoin] go through;
    - the [Crawler] methods [fetch_page], [parse_links], [should_follow],
      [save_raw], [log_metadata], [crawl_seed] and [run], written in a small
      state-and-exception monad over the crawler object, with the outside
      world (network, robots.txt, HTML parser, file system, random numbers)
      supplied by oracles;
    - the properties of the traversal engine.

    Strings are [string]s of 8-bit characters: a Python [str] is held as
    its UTF-8 encoding.  The separators, scheme characters and letters the
    crawler looks for are ASCII; [str.strip()] also removes the whitespace
    characters outside ASCII, which are recognised by their encodings.
    Case folding acts on ASCII letters only.  No other character lowers to
    a letter of [.pdf], [.doc], [.docx] or [text/html], so the tests of
    [crawl_seed] are exact; of the recorded content type only letters
    outside ASCII can differ.  The delays are rational numbers and
    [time.sleep] is taken to return.

    Two exceptions can leave a method of the crawler: the [ValueError] of
    [urlparse] and [urljoin], and the [OSError] of the [mkdir] calls of
    [save_raw]; everything else the source catches.  Logging and the
    progress bar have no effect on the crawl and are left out.  A run is
    followed step by step, one iteration of the [while] loop of
    [crawl_seed] or one turn of the [for] loop of [run] at a time, so that
    the properties hold at every point of a run, finished or not. *)

From Stdlib Require Import ZArith QArith Lqa Ascii String List Bool Lia.
From stdpp Require Import gmap strings list.

Local Open Scope Z_scope.
#[local] Set Warnings "-clear-no-such-hyp".

(** ** Python string methods *)

Module Py.

Definition is_empty (s : string) : bool :=
  match s with EmptyString => true | String _ _ => false end.

Definition ord (c : ascii) : N := N_of_ascii c.

Definition is_upper (c : ascii) : bool := ((65 <=? ord c) && (ord c <=? 90))%N.
Definition is_lower (c : ascii) : bool := ((97 <=? ord c) && (ord c <=? 122))%N.
Definition is_digit (c : ascii) : bool := ((48 <=? ord c) && (ord c <=? 57))%N.
Definition is_alpha (c : ascii) : bool := is_upper c || is_lower c.
Definition is_ascii (c : ascii) : bool := (ord c <? 128)%N.

(** [c.lower()] on an ASCII letter; other characters are left alone. *)
Definition lower_char (c : ascii) : ascii :=
  if is_upper c then ascii_of_N (ord c + 32) else c.

(** [s.lower()] *)
Fixpoint lower (s : string) : string :=
  match s with
  | EmptyString => EmptyString
  | String c t => String (lower_char c) (lower t)
  end.

(** [s.startswith(p)] *)
Fixpoint startswith (s p : string) {struct p} : bool :=
  match p, s with
  | EmptyString, _ => true
  | String _ _, EmptyString => false
  | String a p', String b s' => Ascii.eqb a b && startswith s' p'
  end.

(** [sub in s] *)
Fixpoint contains (sub s : string) : bool :=
  startswith s sub ||
  match s with
  | EmptyString => false
  | String _ t => contains sub t
  end.

(** [c in s] for a single character *)
Fixpoint has_char (c : ascii) (s : string) : bool :=
  match s with
  | EmptyString => false
  | String a t => Ascii.eqb a c || has_char c t
  end.

Fixpoint all_chars (p : ascii -> bool) (s : string) : bool :=
  match s with
  | EmptyString => true
  | String a t => p a && all_chars p t
  end.

(** [s.isascii()] *)
Definition isascii (s : string) : bool := all_chars is_ascii s.

(** [s.partition(c)] when [c] occurs in [s]: the text before and after the
    first occurrence; [None] when [c] does not occur. *)
Fixpoint partition (c : ascii) (s : string) : option (string * string) :=
  match s with
  | EmptyString => None
  | String a t =>
      if Ascii.eqb a c then Some (EmptyString, t)
      else match partition c t with
           | Some (h, r) => Some (String a h, r)
           | None => None
           end
  end.

(** [s.rpartition(c)] when [c] occurs in [s]: split at the last occurrence. *)
Fixpoint rpartition (c : ascii) (s : string) : option (string * string) :=
  match s with
  | EmptyString => None
  | String a t =>
      match rpartition c t with
      | Some (h, r) => Some (String a h, r)
      | None => if Ascii.eqb a c then Some (EmptyString, t) else None
      end
  end.

(** [s.split(c)] *)
Fixpoint split (c : ascii) (s : string) : list string :=
  match s with
  | EmptyString => [EmptyString]
  | String a t =>
      if Ascii.eqb a c then EmptyString :: split c t
      else match split c t with
           | h :: r => String a h :: r
           | [] => [String a EmptyString]
           end
  end.

(** [s.split(c)[0]] *)
Definition split_head (c : ascii) (s : string) : string :=
  match split c s with
  | h :: _ => h
  | [] => EmptyString
  end.

(** [c.join(l)] *)
Fixpoint join (c : ascii) (l : list string) : string :=
  match l with
  | [] => EmptyString
  | [s] => s
  | s :: r => s +:+ String c (join c r)
  end.

(** [s.lstrip(chars)], with [chars] given as a predicate *)
Fixpoint lstrip (p : ascii -> bool) (s : string) : string :=
  match s with
  | EmptyString => EmptyString
  | String a t => if p a then lstrip p t else s
  end.

(** [s.rstrip(chars)] *)
Fixpoint rstrip (p : ascii -> bool) (s : string) : string :=
  match s with
  | EmptyString => EmptyString
  | String a t =>
      let t' := rstrip p t in
      if is_empty t' && p a then EmptyString else String a t'
  end.

(** [s.strip(chars)] *)
Definition strip (p : ascii -> bool) (s : string) : string :=
  rstrip p (lstrip p s).

(** [s.replace(c, '')] for every [c] selected by [p] *)
Fixpoint remove_chars (p : ascii -> bool) (s : string) : string :=
  match s with
  | EmptyString => EmptyString
  | String a t => if p a then remove_chars p t else String a (remove_chars p t)
  end.

(** The longest prefix free of the characters selected by [p], and the rest. *)
Fixpoint span_until (p : ascii -> bool) (s : string) : string * string :=
  match s with
  | EmptyString => (EmptyString, EmptyString)
  | String a t =>
      if p a then (EmptyString, s)
      else let '(h, r) := span_until p t in (String a h, r)
  end.

(** [s[n:]] *)
Fixpoint drop (n : nat) (s : string) : string :=
  match n, s with
  | O, _ => s
  | S _, EmptyString => EmptyString
  | S n', String _ t => drop n' t
  end.

(** Python's default whitespace for [str.strip()], ASCII part. *)
Definition is_space (c : ascii) : bool :=
  ((9 <=? ord c) && (ord c <=? 13) || (28 <=? ord c) && (ord c <=? 32))%N.

(** The other characters for which [str.isspace()] holds, in UTF-8: U+0085
    and U+00A0 take two bytes; U+1680, U+2000 to U+200A, U+2028, U+2029,
    U+202F, U+205F and U+3000 take three. *)
Definition is_space2 (a b : ascii) : bool :=
  ((ord a =? 194) && ((ord b =? 133) || (ord b =? 160)))%N.

Definition is_space3 (a b c : ascii) : bool :=
  ((ord a =? 225) && (ord b =? 154) && (ord c =? 128)
   || (ord a =? 226) && (ord b =? 128)
      && ((128 <=? ord c) && (ord c <=? 138)
          || (ord c =? 168) || (ord c =? 169) || (ord c =? 175))
   || (ord a =? 226) && (ord b =? 129) && (ord c =? 159)
   || (ord a =? 227) && (ord b =? 128) && (ord c =? 128))%N.


(** [s.isspace()], also true of the empty string here *)
Fixpoint all_space (s : string) : bool :=
  match s with
  | EmptyString => true
  | String a t =>
      if is_space a then all_space t
      else match t with
           | String b t' =>
               if is_space2 a b then all_space t'
               else match t' with
                    | String c t'' => is_space3 a b c && all_space t''
                    | EmptyString => false
                    end
           | EmptyString => false
           end
  end.

(** [s.lstrip()] *)
Fixpoint lstrip_whitespace (s : string) : string :=
  match s with
  | EmptyString => EmptyString
  | String a t =>
      if is_space a then lstrip_whitespace t
      else match t with
           | String b t' =>
               if is_space2 a b then lstrip_whitespace t'
               else match t' with
                    | String c t'' =>
                        if is_space3 a b c then lstrip_whitespace t'' else s
                    | EmptyString => s
                    end
           | EmptyString => s
           end
  end.

(** [s.rstrip()]: what is left once the longest suffix made of whitespace
    characters is gone. *)
Fixpoint rstrip_whitespace (s : string) : string :=
  match s with
  | EmptyString => EmptyString
  | String a t => if all_space s then EmptyString else String a (rstrip_whitespace t)
  end.

(** [s.strip()] *)
Definition strip_whitespace (s : string) : string :=
  rstrip_whitespace (lstrip_whitespace s).

Definition slash (c : ascii) : bool := Ascii.eqb c "/".

End Py.

(** ** urllib.parse *)

Module Urllib.

Import Py.

Record ParseResult := mkParseResult {
  scheme : string;
  netloc : string;
  path : string;
  params : string;
  query : string;
  fragment : string
}.

Definition uses_relative : list string :=
  [EmptyString; "ftp"; "http"; "gopher"; "nntp"; "imap"; "wais"; "file";
   "https"; "shttp"; "mms"; "prospero"; "rtsp"; "rtspu"; "sftp"; "svn";
   "svn+ssh"; "ws"; "wss"].

Definition uses_netloc : list string :=
  [EmptyString; "ftp"; "http"; "gopher"; "nntp"; "telnet"; "imap"; "wais";
   "file"; "mms"; "https"; "shttp"; "snews"; "prospero"; "rtsp"; "rtspu";
   "rsync"; "svn"; "svn+ssh"; "sftp"; "nfs"; "git"; "git+ssh"; "ws"; "wss"].

Definition uses_params : list string :=
  [EmptyString; "ftp"; "hdl"; "prospero"; "http"; "imap"; "https"; "shttp";
   "rtsp"; "rtspu"; "sip"; "sips"; "mms"; "sftp"; "tel"].

Definition mem (s : string) (l : list string) : bool :=
  existsb (String.eqb s) l.

(** [c in scheme_chars] *)
Definition scheme_char (c : ascii) : bool :=
  is_alpha c || is_digit c || Ascii.eqb c "+" || Ascii.eqb c "-"
  || Ascii.eqb c ".".

(** [sch] is accepted by [urlsplit] as the scheme of [sch:rest]. *)
Definition is_scheme (sch : string) : bool :=
  match sch with
  | String c0 _ => is_ascii c0 && is_alpha c0 && all_chars scheme_char sch
  | EmptyString => false
  end.

(** [_WHATWG_C0_CONTROL_OR_SPACE] *)
Definition c0_control_or_space (c : ascii) : bool := (ord c <=? 32)%N.

(** [_UNSAFE_URL_BYTES_TO_REMOVE]: tab, carriage return, line feed *)
Definition unsafe_url_byte (c : ascii) : bool :=
  (ord c =? 9)%N || (ord c =? 13)%N || (ord c =? 10)%N.

Definition netloc_delim (c : ascii) : bool :=
  Ascii.eqb c "/" || Ascii.eqb c "?" || Ascii.eqb c "#".

(** [_splitnetloc(url, 2)] *)
Definition splitnetloc (url : string) : string * string :=
  span_until netloc_delim (drop 2 url).

(** [_splitparams(url)]; its caller has checked that [';'] occurs in
    [url]. *)
Definition splitparams (url : string) : string * string :=
  match rpartition "/" url with
  | Some (h, t) =>
      match partition ";" t with
      | Some (a, b) => (h +:+ String "/" a, b)
      | None => (url, EmptyString)
      end
  | None =>
      match partition ";" url with
      | Some (a, b) => (a, b)
      | None => (url, EmptyString)
      end
  end.

Section Validation.

(** The two netloc validations of [urlsplit] that raise [ValueError] and
    need tables outside this model: [_check_bracketed_netloc] (IPv6 and
    IPvFuture literals) and the NFKC test of [_checknetloc] on a
    non-ASCII netloc.  Each answers whether the netloc is accepted. *)
Variable check_bracketed_netloc : string -> bool.
Variable checknetloc_nfkc : string -> bool.

Definition brackets_ok (nl : string) : bool :=
  let o := has_char "[" nl in
  let c := has_char "]" nl in
  if xorb o c then false
  else if o && c then check_bracketed_netloc nl
  else true.

Definition checknetloc (nl : string) : bool :=
  if is_empty nl || isascii nl then true else checknetloc_nfkc nl.

(** [urlsplit] once the scheme has been taken off: netloc, fragment and
    query, in this order; [None] stands for [ValueError]. *)
Definition urlsplit_rest (sch url : string)
  : option (string * string * string * string * string) :=
  let '(nl, url, ok) :=
    if startswith url "//"
    then let '(nl, rest) := splitnetloc url in
         (nl, rest, brackets_ok nl)
    else (EmptyString, url, true) in
  if negb ok then None
  else
    let '(url, frag) :=
      match partition "#" url with
      | Some (a, b) => (a, b)
      | None => (url, EmptyString)
      end in
    let '(url, qry) :=
      match partition "?" url with
      | Some (a, b) => (a, b)
      | None => (url, EmptyString)
      end in
    if checknetloc nl then Some (sch, nl, url, qry, frag) else None.

(** [urlsplit(url, scheme)]: scheme, netloc, path, query, fragment. *)
Definition urlsplit (url default_scheme : string)
  : option (string * string * string * string * string) :=
  let url := remove_chars unsafe_url_byte (lstrip c0_control_or_space url) in
  let sch := remove_chars unsafe_url_byte
               (strip c0_control_or_space default_scheme) in
  let '(sch, url) :=
    match partition ":" url with
    | Some (pre, post) =>
        match pre with
        | String c0 _ =>
            if is_ascii c0 && is_alpha c0 && all_chars scheme_char pre
            then (lower pre, post)
            else (sch, url)
        | EmptyString => (sch, url)
        end
    | None => (sch, url)
    end in
  urlsplit_rest sch url.

(** [urlparse(url, scheme)] *)
Definition urlparse_with (url default_scheme : string) : option ParseResult :=
  match urlsplit url default_scheme with
  | None => None
  | Some (sch, nl, url, qry, frag) =>
      let '(url, prm) :=
        if mem sch uses_params && has_char ";" url
        then splitparams url
        else (url, EmptyString) in
      Some (mkParseResult sch nl url prm qry frag)
  end.

(** [urlparse(url)] *)
Definition urlparse (url : string) : option ParseResult :=
  urlparse_with url EmptyString.

(** [urlunsplit((scheme, netloc, url, query, fragment))] *)
Definition urlunsplit (sch nl url qry frag : string) : string :=
  let url :=
    if negb (is_empty nl)
       || (negb (is_empty sch) && mem sch uses_netloc
           && negb (startswith url "//"))
    then
      let url := if negb (is_empty url) && negb (startswith url "/")
                 then String "/" url else url in
      "//" +:+ nl +:+ url
    else url in
  let url := if negb (is_empty sch) then sch +:+ String ":" url else url in
  let url := if negb (is_empty qry) then url +:+ String "?" qry else url in
  if negb (is_empty frag) then url +:+ String "#" frag else url.

(** [urlunparse(components)] *)
Definition urlunparse (p : ParseResult) : string :=
  let url := if negb (is_empty (params p))
             then path p +:+ String ";" (params p) else path p in
  urlunsplit (scheme p) (netloc p) url (query p) (fragment p).

(** The loop of [urljoin] over the path segments: [..] pops (ignored on
    an empty stack), [.] is skipped, anything else is pushed. *)
Fixpoint resolve_segments (segs resolved : list string) : list string :=
  match segs with
  | [] => resolved
  | seg :: r =>
      if String.eqb seg ".." then resolve_segments r (removelast resolved)
      else if String.eqb seg "." then resolve_segments r resolved
      else resolve_segments r (resolved ++ [seg])
  end.

(** [segments[1:-1] = filter(None, segments[1:-1])] *)
Definition filter_inner (segs : list string) : list string :=
  match segs with
  | [] => []
  | [a] => [a]
  | a :: r =>
      a :: List.filter (fun s => negb (is_empty s)) (removelast r)
        ++ [List.last r EmptyString]
  end.

(** [urljoin(base, url)]; [None] stands for [ValueError]. *)
Definition urljoin (base url : string) : option string :=
  if is_empty base then Some url
  else if is_empty url then Some base
  else
    match urlparse_with base EmptyString with
    | None => None
    | Some b =>
        match urlparse_with url (scheme b) with
        | None => None
        | Some u =>
            if negb (String.eqb (scheme u) (scheme b))
               || negb (mem (scheme u) uses_relative)
            then Some url
            else if mem (scheme u) uses_netloc && negb (is_empty (netloc u))
            then Some (urlunparse u)
            else
              let nl := if mem (scheme u) uses_netloc
                        then netloc b else netloc u in
              if is_empty (path u) && is_empty (params u) then
                let qry := if is_empty (query u) then query b else query u in
                Some (urlunparse
                        (mkParseResult (scheme u) nl (path b) (params b)
                           qry (fragment u)))
              else
                let base_parts := split "/" (path b) in
                let base_parts :=
                  if negb (is_empty (List.last base_parts EmptyString))
                  then removelast base_parts else base_parts in
                let segments :=
                  if startswith (path u) "/" then split "/" (path u)
                  else filter_inner (base_parts ++ split "/" (path u)) in
                let resolved := resolve_segments segments [] in
                let lastseg := List.last segments EmptyString in
                let resolved :=
                  if String.eqb lastseg "." || String.eqb lastseg ".."
                  then resolved ++ [EmptyString] else resolved in
                let joined := join "/" resolved in
                let joined := if is_empty joined then "/" else joined in
                Some (urlunparse
                        (mkParseResult (scheme u) nl joined (params u)
                           (query u) (fragment u)))
        end
    end.

End Validation.

End Urllib.

(** ** The crawler object, its configuration and the outside world *)

Import Py Urllib.

Definition bytes := list Byte.byte.

(** [args]: the options read by the crawler. *)
Record Args := mkArgs {
  depth : Z;
  delay_min : Q;
  delay_max : Q;
  max_pages : Z;
  user_agent : string
}.

(** What [requests] hands back for a completed exchange. *)
Record Response := mkResponse {
  content : bytes;
  status_code : Z;
  content_type_header : option string
}.

(** The four ways [session.get] ends, as [fetch_page] tells them apart. *)
Inductive GetOutcome :=
| Responded (r : Response)
| RaisesTimeout
| RaisesConnectionError
| RaisesRequestException.

(** [RobotFileParser.can_fetch(useragent, url)] of a loaded policy.  It
    parses the unquoted URL again; the [ValueError] this can raise for a
    URL that is malformed only once unquoted is left out. *)
Definition RobotFileParser := string -> string -> bool.

(** The outside world.  [fetch_page], [save_raw] and [log_metadata] run at
    most once per URL and [rp.read()] at most once per site, so oracles keyed
    by the URL (and the attempt number) describe any behaviour of the
    network and of the file system during one run.

    [robots_read robots_url] is [None] when [rp.read()] raises, and
    otherwise the parser it leaves behind: one that refuses everything
    after an HTTP 401 or 403 and after a server error (nothing was read),
    one that allows everything after another 4xx answer, and the rules of
    the file when it was fetched.

    [random_uniform url a b] is what [random.uniform(a, b)] returns before
    the fetch of [url]; its floating-point arithmetic is not modelled.
    [write_ok url] tells whether the [with open(...)] block of [save_raw]
    completes; when it does not, [failed_write url] is [None] if [open]
    itself raised, and otherwise holds what the file is left with: [open]
    in mode ['wb'] has created or truncated it before the write fails. *)
Record World := mkWorld {
  seeds_file : option (list string);
  session_get : string -> nat -> GetOutcome;
  robots_read : string -> option RobotFileParser;
  soup_hrefs : bytes -> option (list string);
  set_iter : gset string -> list string;
  random_uniform : string -> Q -> Q -> Q;
  mkdir_ok : string -> bool;
  write_ok : string -> bool;
  failed_write : string -> option bytes;
  index_ok : string -> bool;
  sha1_hexdigest : string -> string;
  today : string -> string;
  now_isoformat : string -> string;
  check_bracketed_netloc : string -> bool;
  checknetloc_nfkc : string -> bool
}.

(** One line of [index.jsonl]. *)
Record Metadata := mkMetadata {
  md_url : string;
  md_status_code : Z;
  md_content_type : string;
  md_saved_path : string;
  md_crawl_date : string;
  md_depth : Z;
  md_parent_url : string;
  md_content_length : Z
}.

(** What the run does to the world, in order.  [Delay] and [Backoff] are
    both [time.sleep]: the first is the call in [crawl_seed], the second the
    one in [fetch_page].  [Dequeue], [MarkVisited] and [Fetch] record
    [queue.pop(0)], [visited_urls.add] and the call of [fetch_page] in
    [crawl_seed]. *)
Inductive Event :=
| Dequeue (url : string) (d : Z) (parent_url : string)
| RobotsRead (robots_url : string)
| MarkVisited (url : string)
| Delay (secs : Q)
| Fetch (url : string) (d : Z)
| Get (url : string) (attempt : nat)
| Backoff (secs : Z)
| Mkdir (url : string) (ok : bool)
| WriteFile (filepath : string) (ok : bool)
| AppendIndex (url : string) (ok : bool).

(** The crawler object together with the disk it writes and the trace. *)
Record State := mkState {
  visited_urls : gset string;
  robots_cache : gmap string (option RobotFileParser);
  pages_crawled : Z;
  files : gmap string bytes;
  index_jsonl : list Metadata;
  trace : list Event
}.

(** [Crawler.__init__] *)
Definition init : State :=
  mkState ∅ ∅ 0 ∅ [] [].

Inductive Exn := ValueError | OSError.

Inductive Result (A : Type) :=
| Ok (a : A)
| Raise (e : Exn).
Arguments Ok {A} a.
Arguments Raise {A} e.

Definition M (A : Type) : Type := State -> Result A * State.

Definition ret {A} (a : A) : M A := fun s => (Ok a, s).
Definition raise {A} (e : Exn) : M A := fun s => (Raise e, s).
Definition bind {A B} (m : M A) (k : A -> M B) : M B :=
  fun s => match m s with
           | (Ok a, s') => k a s'
           | (Raise e, s') => (Raise e, s')
           end.
Definition get_state : M State := fun s => (Ok s, s).
Definition emit (e : Event) : M unit :=
  fun s => (Ok tt, mkState (visited_urls s) (robots_cache s) (pages_crawled s)
                     (files s) (index_jsonl s) (trace s ++ [e])).
Definition emit_all (es : list Event) : M unit :=
  fun s => (Ok tt, mkState (visited_urls s) (robots_cache s) (pages_crawled s)
                     (files s) (index_jsonl s) (trace s ++ es)).
Definition of_option {A} (o : option A) : M A :=
  match o with Some a => ret a | None => raise ValueError end.

Declare Scope crawl_scope.
Delimit Scope crawl_scope with crawl.
Notation "'let*' x ':=' m 'in' k" := (bind m (fun x => k))
  (at level 10, x pattern, m at level 100, k at level 200) : crawl_scope.
Notation "'run*' m 'in' k" := (bind m (fun _ => k))
  (at level 10, m at level 100, k at level 200) : crawl_scope.
Local Open Scope crawl_scope.

Definition set_visited (v : gset string) : M unit :=
  fun s => (Ok tt, mkState v (robots_cache s) (pages_crawled s)
                     (files s) (index_jsonl s) (trace s)).
Definition set_robots_cache (c : gmap string (option RobotFileParser)) : M unit :=
  fun s => (Ok tt, mkState (visited_urls s) c (pages_crawled s)
                     (files s) (index_jsonl s) (trace s)).
Definition set_pages_crawled (n : Z) : M unit :=
  fun s => (Ok tt, mkState (visited_urls s) (robots_cache s) n
                     (files s) (index_jsonl s) (trace s)).
Definition set_files (f : gmap string bytes) : M unit :=
  fun s => (Ok tt, mkState (visited_urls s) (robots_cache s) (pages_crawled s)
                     f (index_jsonl s) (trace s)).
Definition set_index (i : list Metadata) : M unit :=
  fun s => (Ok tt, mkState (visited_urls s) (robots_cache s) (pages_crawled s)
                     (files s) i (trace s)).

(** ** The methods of [Crawler] *)

Definition Entry := (string * Z * string)%type.

Definition FetchResult := (option bytes * Z * string * Z)%type.

(** [os.path.splitext(p)[1]] *)
Definition splitext_ext (p : string) : string :=
  let base := match rpartition "/" p with
              | Some (_, t) => t
              | None => p
              end in
  match rpartition "." base with
  | Some (h, t) =>
      if all_chars (fun c => Ascii.eqb c ".") h then EmptyString
      else String "." t
  | None => EmptyString
  end.

(** [s.replace(':', '_')] *)
Fixpoint replace_colon (s : string) : string :=
  match s with
  | EmptyString => EmptyString
  | String a t =>
      String (if Ascii.eqb a ":" then "_"%char else a) (replace_colon t)
  end.

(** [any(ext in url.lower() for ext in ['.pdf', '.doc', '.docx'])] *)
Definition file_extensions : list string := [".pdf"; ".doc"; ".docx"].

Definition has_file_extension (url : string) : bool :=
  existsb (fun ext => contains ext (lower url)) file_extensions.

Section Methods.

Variable args : Args.
Variable w : World.

Definition parse_url (url : string) : option ParseResult :=
  urlparse (check_bracketed_netloc w) (checknetloc_nfkc w) url.

Definition join_url (base url : string) : option string :=
  urljoin (check_bracketed_netloc w) (checknetloc_nfkc w) base url.

(** [read_seeds] *)
Definition read_seeds : list string :=
  match seeds_file w with
  | None => []
  | Some lines =>
      List.filter (fun line => negb (is_empty line) && negb (startswith line "#"))
        (List.map strip_whitespace lines)
  end.

(** [get_robots_parser] *)
Definition get_robots_parser (url : string) : M (option RobotFileParser) :=
  let* parsed := of_option (parse_url url) in
  let base_url := scheme parsed +:+ "://" +:+ netloc parsed in
  let* s := get_state in
  match robots_cache s !! base_url with
  | Some cached => ret cached
  | None =>
      let* robots_url := of_option (join_url base_url "/robots.txt") in
      run* emit (RobotsRead robots_url) in
      match robots_read w robots_url with
      | Some rp =>
          run* set_robots_cache (<[base_url := Some rp]> (robots_cache s)) in
          ret (Some rp)
      | None =>
          run* set_robots_cache (<[base_url := None]> (robots_cache s)) in
          ret None
      end
  end.

(** [can_fetch] *)
Definition can_fetch (url : string) : M bool :=
  let* rp := get_robots_parser url in
  match rp with
  | Some rp => ret (rp (user_agent args) url)
  | None => ret true
  end.

(** The loop [for attempt in range(3)] of [fetch_page], over the attempt
    numbers still to come. *)
Fixpoint fetch_attempts (url : string) (attempts : list nat)
  : list Event * FetchResult :=
  match attempts with
  | [] => ([], (None, 0, EmptyString, 0))
  | attempt :: rest =>
      match session_get w url attempt with
      | Responded r =>
          ([Get url attempt],
           (Some (content r), status_code r,
            lower (default EmptyString (content_type_header r)),
            Z.of_nat (length (content r))))
      | RaisesTimeout | RaisesConnectionError =>
          let pause := if (attempt <? 2)%nat
                       then [Backoff (2 ^ Z.of_nat attempt)] else [] in
          let '(evs, res) := fetch_attempts url rest in
          (Get url attempt :: pause ++ evs, res)
      | RaisesRequestException =>
          ([Get url attempt], (None, 0, EmptyString, 0))
      end
  end.

(** [fetch_page] *)
Definition fetch_page (url : string) : list Event * FetchResult :=
  fetch_attempts url (seq 0 3).

(** The loop of [parse_links] over the [href] values; an exception of
    [urljoin] ends it with the links gathered so far. *)
Fixpoint collect_links (base_url : string) (hrefs : list string)
    (links : gset string) : gset string :=
  match hrefs with
  | [] => links
  | href :: rest =>
      match join_url base_url href with
      | None => links
      | Some absolute_url =>
          let absolute_url := split_head "#" absolute_url in
          if negb (is_empty absolute_url)
          then collect_links base_url rest ({[absolute_url]} ∪ links)
          else collect_links base_url rest links
      end
  end.

(** [parse_links] *)
Definition parse_links (html_content : bytes) (base_url : string) : gset string :=
  match soup_hrefs w html_content with
  | None => ∅
  | Some hrefs => collect_links base_url hrefs ∅
  end.

(** [should_follow]; [None] when [urlparse] raises. *)
Definition should_follow (url seed_url : string) : option bool :=
  match parse_url url with
  | None => None
  | Some url_parsed =>
      match parse_url seed_url with
      | None => None
      | Some seed_parsed =>
          if negb (String.eqb (netloc url_parsed) (netloc seed_parsed))
          then Some false
          else
            let url_path := path url_parsed in
            let seed_path := path seed_parsed in
            let seed_path_prefix := rstrip slash seed_path in
            if is_empty seed_path_prefix || String.eqb seed_path_prefix "/"
            then Some true
            else if negb (startswith url_path seed_path_prefix)
            then Some false
            else Some true
      end
  end.

(** The path [save_raw] writes to. *)
Definition save_path (url : string) (is_file : bool) : option string :=
  let url_hash := sha1_hexdigest w url in
  match parse_url url with
  | None => None
  | Some parsed =>
      if is_file then
        let ext := lower (splitext_ext (path parsed)) in
        let ext := if is_empty ext then ".bin" else ext in
        Some ("data/raw_files/" +:+ url_hash +:+ ext)
      else
        let hostname := replace_colon (netloc parsed) in
        Some ("data/raw/" +:+ today w url +:+ "/" +:+ hostname +:+ "_"
              +:+ url_hash +:+ ".html")
  end.

(** [mkdir(parents=True, exist_ok=True)] on the directory of the page *)
Definition make_dirs (url : string) : M unit :=
  run* emit (Mkdir url (mkdir_ok w url)) in
  if mkdir_ok w url then ret tt else raise OSError.

(** [save_raw]: the directory is created before the [try] block, the
    file is written inside it.  For a file the URL is parsed before the
    directory is made, for a page after it. *)
Definition save_raw (content : bytes) (url : string) (is_file : bool) : M string :=
  let* filepath :=
    if is_file then
      let* filepath := of_option (save_path url true) in
      run* make_dirs url in
      ret filepath
    else
      run* make_dirs url in
      of_option (save_path url false) in
  run* emit (WriteFile filepath (write_ok w url)) in
  let* s := get_state in
  if write_ok w url then
    run* set_files (<[filepath := content]> (files s)) in
    ret filepath
  else
    match failed_write w url with
    | Some left_behind =>
        run* set_files (<[filepath := left_behind]> (files s)) in
        ret EmptyString
    | None => ret EmptyString
    end.

(** [log_metadata]: everything happens inside the [try] block. *)
Definition log_metadata (url : string) (status_code : Z) (content_type : string)
    (saved_path : string) (d : Z) (parent_url : string) (content_length : Z)
  : M unit :=
  let metadata :=
    mkMetadata url status_code content_type saved_path (now_isoformat w url)
      d parent_url content_length in
  run* emit (AppendIndex url (index_ok w url)) in
  if index_ok w url then
    let* s := get_state in
    set_index (index_jsonl s ++ [metadata])
  else ret tt.

(** One link of the loop [for link in links] of [crawl_seed]. *)
Definition enqueue_link (seed_url url : string) (d : Z) (visited : gset string)
    (queue : list Entry) (link : string) : option (list Entry) :=
  if bool_decide (link ∈ visited) then Some queue
  else
    match should_follow link seed_url with
    | None => None
    | Some false => Some queue
    | Some true =>
        if has_file_extension link
        then Some (queue ++ [(link, d, url)])
        else Some (queue ++ [(link, d + 1, url)])
    end.

Fixpoint enqueue_links (seed_url url : string) (d : Z) (visited : gset string)
    (queue : list Entry) (links : list string) : option (list Entry) :=
  match links with
  | [] => Some queue
  | link :: rest =>
      match enqueue_link seed_url url d visited queue link with
      | None => None
      | Some queue' => enqueue_links seed_url url d visited queue' rest
      end
  end.

Definition add_visited (url : string) : M unit :=
  let* s := get_state in
  run* set_visited ({[url]} ∪ visited_urls s) in
  emit (MarkVisited url).

Definition polite_delay (url : string) : M unit :=
  let* s := get_state in
  if pages_crawled s >? 0
  then emit (Delay (random_uniform w url (delay_min args) (delay_max args)))
  else ret tt.

(** The body of the [while] loop of [crawl_seed], on a non-empty queue. *)
Definition crawl_seed_body (seed_url : string) (entry : Entry)
    (queue : list Entry) : M (list Entry) :=
  let '(url, d, parent_url) := entry in
  run* emit (Dequeue url d parent_url) in
  let* s := get_state in
  if bool_decide (url ∈ visited_urls s) then ret queue
  else if d >? depth args then ret queue
  else
    let* allowed := can_fetch url in
    if negb allowed then ret queue
    else
      run* add_visited url in
      run* polite_delay url in
      run* emit (Fetch url d) in
      let '(evs, (content, status_code, content_type, content_length)) :=
        fetch_page url in
      run* emit_all evs in
      match content with
      | None => ret queue
      | Some content =>
          let* s := get_state in
          run* set_pages_crawled (pages_crawled s + 1) in
          let is_html := contains "text/html" content_type in
          let is_file := has_file_extension url in
          if is_file || negb is_html then
            let* saved_path := save_raw content url true in
            run* log_metadata url status_code content_type saved_path
                   d parent_url content_length in
            ret queue
          else
            let* saved_path := save_raw content url false in
            run* log_metadata url status_code content_type saved_path
                   d parent_url content_length in
            if d <? depth args then
              let links := parse_links content url in
              let* s := get_state in
              of_option (enqueue_links seed_url url d (visited_urls s) queue
                           (set_iter w links))
            else ret queue
      end.

(** Where the control of [run] stands: at the head of [for seed in seeds],
    at the head of the [while] loop of [crawl_seed], returned, or unwound
    by an exception. *)
Inductive Control :=
| AtSeeds (seeds : list string)
| InSeed (seed_url : string) (queue : list Entry) (seeds : list string)
| Finished
| Aborted (e : Exn).

(** The condition of the [while] loop, without [queue]. *)
Definition budget_left (s : State) : bool :=
  (max_pages args =? 0) || (pages_crawled s <? max_pages args).

(** The test at the head of the [for] loop of [run]. *)
Definition budget_reached (s : State) : bool :=
  (max_pages args >? 0) && (pages_crawled s >=? max_pages args).

Definition step (c : Control) (s : State) : Control * State :=
  match c with
  | AtSeeds [] => (Finished, s)
  | AtSeeds (seed :: rest) =>
      if budget_reached s then (Finished, s)
      else (InSeed seed [(seed, 0, EmptyString)] rest, s)
  | InSeed seed_url [] rest => (AtSeeds rest, s)
  | InSeed seed_url (entry :: queue) rest =>
      if budget_left s then
        match crawl_seed_body seed_url entry queue s with
        | (Ok queue', s') => (InSeed seed_url queue' rest, s')
        | (Raise e, s') => (Aborted e, s')
        end
      else (AtSeeds rest, s)
  | Finished => (Finished, s)
  | Aborted e => (Aborted e, s)
  end.

Fixpoint steps (n : nat) (c : Control) (s : State) : Control * State :=
  match n with
  | O => (c, s)
  | S n' => let '(c', s') := step c s in steps n' c' s'
  end.

(** [crawl_seed], followed for [n] steps. *)
Definition crawl_seed (n : nat) (seed_url : string) (s : State) : Control * State :=
  steps n (InSeed seed_url [(seed_url, 0, EmptyString)] []) s.

(** [run], followed for [n] steps from a fresh crawler. *)
Definition run (n : nat) : Control * State :=
  steps n (AtSeeds read_seeds) init.

End Methods.

(** ** Worlds for the examples *)

(** The body of the page at [url] in the examples: the URL itself, so that
    [soup_hrefs] can tell the pages apart. *)
Definition body_of (url : string) : bytes := list_byte_of_string url.

(** A world built from the lines of the seeds file, the answers of
    [session.get], the anchors of each page, the iteration order of a set
    and the outcomes of [mkdir] and of writing a file.  No site has a
    robots.txt, the index can always be appended to, and the SHA-1 digest
    of a URL is left symbolic: it is the URL itself. *)

Definition example_world (seeds : list string)
    (get : string -> nat -> GetOutcome)
    (links : string -> list string)
    (order : gset string -> list string)
    (mkdirs writes : string -> bool) : World :=
  {| seeds_file := Some seeds;
     session_get := get;
     robots_read := fun _ => None;
     soup_hrefs := fun html => Some (links (string_of_list_byte html));
     set_iter := order;
     random_uniform := fun _ a _ => a;
     mkdir_ok := mkdirs;
     write_ok := writes;
     failed_write := fun _ => None;
     index_ok := fun _ => true;
     sha1_hexdigest := fun url => url;
     today := fun _ => "20240101";
     now_isoformat := fun _ => "2024-01-01T00:00:00";
     check_bracketed_netloc := fun _ => true;
     checknetloc_nfkc := fun _ => true |}.

Definition html_page (url : string) : GetOutcome :=
  Responded (mkResponse (body_of url) 200 (Some "text/html; charset=utf-8")).

(** No network, no links: enough to evaluate the URL functions. *)
Definition offline_world : World :=
  example_world [] (fun _ _ => RaisesConnectionError) (fun _ => [])
    elements (fun _ => true) (fun _ => true).

(** The page of the link-extraction example: anchors [/a], [/b],
    [https://h/c] and [#frag]. *)
Definition anchors_world : World :=
  example_world [] (fun _ _ => RaisesConnectionError)
    (fun _ => ["/a"; "/b"; "https://h/c"; "#frag"])
    elements (fun _ => true) (fun _ => true).

(** A small site: [http://h/] links to [/b] and [/c], which link to each
    other.  Whichever of the two is iterated first, the other one is put on
    the queue a second time before it is visited. *)
Definition site_links (url : string) : list string :=
  if String.eqb url "http://h/" then ["/b"; "/c"]
  else if String.eqb url "http://h/b" then ["/c"]
  else if String.eqb url "http://h/c" then ["/b"]
  else [].

Definition site_world : World :=
  example_world ["http://h/"] (fun url _ => html_page url) site_links
    (fun links => reverse (elements links)) (fun _ => true) (fun _ => true).

Definition site_args : Args := mkArgs 3 1 3 0 "Test".

(** The same site under a budget of two pages. *)
Definition budget_args : Args := mkArgs 3 1 3 2 "Test".

(** Two seeds; the first host refuses every connection. *)
Definition down_up_world : World :=
  example_world ["http://down/"; "http://up/"]
    (fun url _ => if String.eqb url "http://down/"
                  then RaisesConnectionError else html_page url)
    (fun _ => []) elements (fun _ => true) (fun _ => true).

(** Two seeds; the directory for the first page cannot be created. *)
Definition no_mkdir_world : World :=
  example_world ["http://h/a"; "http://h/b"] (fun url _ => html_page url)
    (fun _ => []) elements
    (fun url => negb (String.eqb url "http://h/a")) (fun _ => true).

(** Two seeds; the file of the first page cannot be written. *)
Definition no_write_world : World :=
  example_world ["http://h/a"; "http://h/b"] (fun url _ => html_page url)
    (fun _ => []) elements
    (fun _ => true) (fun url => negb (String.eqb url "http://h/a")).

(** A page linking to a document and to another page. *)
Definition library_world : World :=
  example_world ["http://h/"] (fun url _ => html_page url)
    (fun url => if String.eqb url "http://h/" then ["/paper.PDF"; "/next"] else [])
    elements (fun _ => true) (fun _ => true).

(** ** Reading the trace *)

(** The attempt numbers of the [session.get] calls in a trace. *)
Definition gets (evs : list Event) : list nat :=
  omap (fun e => match e with Get _ k => Some k | _ => None end) evs.

(** A failure that [fetch_page] retries. *)
Definition transient (o : GetOutcome) : Prop :=
  o = RaisesTimeout \/ o = RaisesConnectionError.

(** The URLs marked visited, in order. *)
Definition visits (evs : list Event) : list string :=
  omap (fun e => match e with MarkVisited u => Some u | _ => None end) evs.

(** The entries handed to [fetch_page], in order: URL and depth. *)
Definition fetches (evs : list Event) : list (string * Z) :=
  omap (fun e => match e with Fetch u d => Some (u, d) | _ => None end) evs.

(** The URLs taken off the queue, in order. *)
Definition dequeues (evs : list Event) : list string :=
  omap (fun e => match e with Dequeue u _ _ => Some u | _ => None end) evs.

(** The [session.get] calls that were answered by a response, that is, the
    fetches that returned a body. *)
Definition got_body (w : World) (e : Event) : option unit :=
  match e with
  | Get url k =>
      match session_get w url k with
      | Responded _ => Some tt
      | _ => None
      end
  | _ => None
  end.

Definition bodies (w : World) (evs : list Event) : nat :=
  length (omap (got_body w) evs).

(** A piece of the run that dequeues, visits and fetches nothing and leaves
    the visited set and the page counter alone. *)
Definition quiet (w : World) (s s' : State) : Prop :=
  visits (trace s') = visits (trace s) /\
  fetches (trace s') = fetches (trace s) /\
  dequeues (trace s') = dequeues (trace s) /\
  bodies w (trace s') = bodies w (trace s) /\
  visited_urls s' = visited_urls s /\
  pages_crawled s' = pages_crawled s.

(** The queue entry [crawl_seed] builds for a link found on the page [url]
    of depth [d]. *)
Definition link_entry (url : string) (d : Z) (link : string) : Entry :=
  (link, if has_file_extension link then d else d + 1, url).

(** The invariant of a run. *)
Definition run_inv (args : Args) (w : World) (s : State) : Prop :=
  visited_urls s = list_to_set (visits (trace s)) /\
  NoDup (visits (trace s)) /\
  (fetches (trace s)).*1 = visits (trace s) /\
  Forall (fun f => f.2 <= depth args) (fetches (trace s)) /\
  pages_crawled s = Z.of_nat (bodies w (trace s)) /\
  (0 < max_pages args -> pages_crawled s <= max_pages args).

(** A link that passes the visited check and the scope policy. *)
Definition in_scope (w : World) (seed_url : string) (visited : gset string)
    (link : string) : bool :=
  negb (bool_decide (link ∈ visited))
  && bool_decide (should_follow w link seed_url = Some true).

(** The state after an iteration that only took an entry off the queue. *)
Definition dequeued (s : State) (url : string) (d : Z) (parent_url : string) : State :=
  mkState (visited_urls s) (robots_cache s) (pages_crawled s) (files s)
    (index_jsonl s) (trace s ++ [Dequeue url d parent_url]).

(** ** Termination measure *)

(** Work left in the control of [run]. *)
Definition control_size (c : Control) : nat :=
  match c with
  | AtSeeds seeds => 3 * length seeds + 1
  | InSeed _ queue seeds => length queue + 2 + 3 * length seeds
  | Finished | Aborted _ => 0
  end.

(** Work left when every URL of the web lies in the finite set [web]. *)
Definition work_left (web : gset string) (c : Control) (s : State) : nat :=
  control_size c + (size web + 1) * size (web ∖ visited_urls s).

Definition final (c : Control) : Prop :=
  c = Finished \/ exists e, c = Aborted e.

(** Every URL the control still holds lies in [web]. *)
Definition within (web : gset string) (c : Control) : Prop :=
  match c with
  | AtSeeds seeds => forall seed, seed ∈ seeds -> seed ∈ web
  | InSeed _ queue seeds =>
      (forall entry, entry ∈ queue -> entry.1.1 ∈ web) /\
      (forall seed, seed ∈ seeds -> seed ∈ web)
  | Finished | Aborted _ => True
  end.

(** ** [main]: validation of the options *)

(** How [main] ends: [sys.exit(1)] after a diagnostic on the error stream,
    or the run of the crawler. *)
Inductive MainResult :=
| Exit (code : Z) (message : string)
| Crawled (r : Control * State).

(** [x < y] on the delays *)
Definition Qlt_bool (x y : Q) : bool := negb (Qle_bool y x).

(** [main], after [parser.parse_args()]: the four checks in the order of
    the source, then [Crawler(args).run()], followed for [n] steps. *)
Definition main (args : Args) (w : World) (n : nat) : MainResult :=
  if Qlt_bool (delay_min args) 0 || Qlt_bool (delay_max args) 0
  then Exit 1 "Error: Delay values must be non-negative"
  else if Qlt_bool (delay_max args) (delay_min args)
  then Exit 1 "Error: --delay-min must be less than or equal to --delay-max"
  else if depth args <? 0
  then Exit 1 "Error: Depth must be non-negative"
  else if max_pages args <? 0
  then Exit 1 "Error: Max pages must be non-negative"
  else Crawled (run args w n).

(** ** More readings of the trace and of the state *)

(** The arguments of the [time.sleep] calls of [crawl_seed], in order. *)
Definition delays (evs : list Event) : list Q :=
  omap (fun e => match e with Delay secs => Some secs | _ => None end) evs.

(** The arguments of the [time.sleep] calls of [fetch_page], in order. *)
Definition backoffs (evs : list Event) : list Z :=
  omap (fun e => match e with Backoff secs => Some secs | _ => None end) evs.

(** The robots.txt URLs that were read, in order. *)
Definition robots_reads (evs : list Event) : list string :=
  omap (fun e => match e with RobotsRead u => Some u | _ => None end) evs.

(** The key of [robots_cache] for a URL: [scheme://netloc]. *)
Definition site_of (w : World) (url : string) : option string :=
  match parse_url w url with
  | Some parsed => Some (scheme parsed +:+ "://" +:+ netloc parsed)
  | None => None
  end.

(** Every entry of the cache is what reading the site's robots.txt gives. *)
Definition cache_ok (w : World) (s : State) : Prop :=
  forall base v,
    robots_cache s !! base = Some v ->
    exists robots_url,
      join_url w base "/robots.txt" = Some robots_url /\
      v = robots_read w robots_url.

(** The robots.txt of the site of [url], when it can be read, allows
    [url] for the crawler's user agent. *)
Definition allowed (args : Args) (w : World) (url : string) : Prop :=
  forall base robots_url rp,
    site_of w url = Some base ->
    join_url w base "/robots.txt" = Some robots_url ->
    robots_read w robots_url = Some rp ->
    rp (user_agent args) url = true.

(** [url] is one of the seeds or passes the scope policy of one. *)
Definition in_scope_of (w : World) (seeds : list string) (url : string) : Prop :=
  exists seed, seed ∈ seeds /\ (url = seed \/ should_follow w url seed = Some true).

(** A seeds file holding a comment and a blank line only. *)
Definition comments_world : World :=
  example_world ["# only a comment"; "   "] (fun url _ => html_page url)
    (fun _ => []) elements (fun _ => true) (fun _ => true).

(** The state of the robots cache agrees with the world and with the
    trace: every entry is what reading that site's robots.txt gives, and
    there are as many entries as reads. *)
Definition robots_inv (w : World) (s : State) : Prop :=
  cache_ok w s /\ length (robots_reads (trace s)) = size (robots_cache s).

(** Nothing happened to the robots cache between [s] and [s']. *)
Definition same_robots (s s' : State) : Prop :=
  robots_cache s' = robots_cache s /\
  robots_reads (trace s') = robots_reads (trace s).

(** A site whose robots.txt disallows everything under [/private]. *)
Definition robots_world : World :=
  {| seeds_file := Some ["http://h/"];
     session_get := fun url _ => html_page url;
     robots_read := fun _ => Some (fun _ url => negb (contains "/private" url));
     soup_hrefs := fun html =>
       Some (if String.eqb (string_of_list_byte html) "http://h/"
             then ["/private/a"; "/public"] else []);
     set_iter := elements;
     random_uniform := fun _ a _ => a;
     mkdir_ok := fun _ => true;
     write_ok := fun _ => true;
     failed_write := fun _ => None;
     index_ok := fun _ => true;
     sha1_hexdigest := fun url => url;
     today := fun _ => "20240101";
     now_isoformat := fun _ => "2024-01-01T00:00:00";
     check_bracketed_netloc := fun _ => true;
     checknetloc_nfkc := fun _ => true |}.

(** A world whose digests look like SHA-1 digests. *)
Definition digest_world : World :=
  {| seeds_file := Some ["http://h:8080/"];
     session_get := fun url _ => html_page url;
     robots_read := fun _ => None;
     soup_hrefs := fun _ => Some [];
     set_iter := elements;
     random_uniform := fun _ a _ => a;
     mkdir_ok := fun _ => true;
     write_ok := fun _ => true;
     failed_write := fun _ => None;
     index_ok := fun _ => true;
     sha1_hexdigest := fun _ => "da39a3ee5e6b4b0d3255bfef95601890afd80709";
     today := fun _ => "20240101";
     now_isoformat := fun _ => "2024-01-01T00:00:00";
     check_bracketed_netloc := fun _ => true;
     checknetloc_nfkc := fun _ => true |}.

(** ** The index *)



(** ** The scope of a crawl *)

(** Every entry of the queue is the seed being crawled or a URL its scope
    policy accepts, at a depth that is not negative. *)
Definition queue_in_scope (w : World) (seed_url : string) (queue : list Entry)
  : Prop :=
  Forall (fun entry : Entry =>
            (entry.1.1 = seed_url \/ should_follow w entry.1.1 seed_url = Some true)
            /\ 0 <= entry.1.2) queue.

(** What has been fetched lies in the scope of a seed of the file, and so
    does what the control of [run] still holds. *)
Definition scope_inv (w : World) (c : Control) (s : State) : Prop :=
  Forall (fun f : string * Z => in_scope_of w (read_seeds w) f.1 /\ 0 <= f.2)
    (fetches (trace s)) /\
  match c with
  | AtSeeds seeds => seeds ⊆ read_seeds w
  | InSeed seed_url queue seeds =>
      seed_url ∈ read_seeds w /\ seeds ⊆ read_seeds w /\
      queue_in_scope w seed_url queue
  | Finished | Aborted _ => True
  end.


(** ** The files *)

(** The file [p] belongs to a page of the run: it sits under the name
    [save_raw] gives the page, and holds its body or what a failed write
    left of it. *)
Definition stored (w : World) (s : State) (p : string) (content : bytes) : Prop :=
  exists url d evs body status ctype len,
    (url, d) ∈ fetches (trace s) /\
    fetch_page w url = (evs, (Some body, status, ctype, len)) /\
    save_path w url (has_file_extension url || negb (contains "text/html" ctype))
    = Some p /\
    (content = body \/
     (write_ok w url = false /\ failed_write w url = Some content)).

(** A world in which every write breaks off after the first four bytes. *)
Definition torn_write_world : World :=
  {| seeds_file := Some ["http://h:8080/"];
     session_get := fun url _ => html_page url;
     robots_read := fun _ => None;
     soup_hrefs := fun _ => Some [];
     set_iter := elements;
     random_uniform := fun _ a _ => a;
     mkdir_ok := fun _ => true;
     write_ok := fun _ => false;
     failed_write := fun _ => Some (body_of "%PDF");
     index_ok := fun _ => true;
     sha1_hexdigest := fun _ => "da39a3ee5e6b4b0d3255bfef95601890afd80709";
     today := fun _ => "20240101";
     now_isoformat := fun _ => "2024-01-01T00:00:00";
     check_bracketed_netloc := fun _ => true;
     checknetloc_nfkc := fun _ => true |}.

(** ** The scope policy in the words of the specification *)

(** The host with its port: the network location without the user
    information, [netloc.rpartition('@')[2]]. *)
Definition host_with_port (netloc : string) : string :=
  match rpartition "@" netloc with
  | Some (_, t) => t
  | None => netloc
  end.

(** The condition of the specification: the candidate's host (with port)
    equals the seed's, and the seed's path without its trailing slashes is
    empty, or the root, or a prefix of the candidate's path. *)
Definition same_host_and_path_prefix (w : World) (url seed_url : string) : Prop :=
  exists url_parsed seed_parsed,
    parse_url w url = Some url_parsed /\
    parse_url w seed_url = Some seed_parsed /\
    host_with_port (netloc url_parsed) = host_with_port (netloc seed_parsed) /\
    (rstrip slash (path seed_parsed) = EmptyString \/
     rstrip slash (path seed_parsed) = "/" \/
     startswith (path url_parsed) (rstrip slash (path seed_parsed)) = true).

(** The site of [site_world] when its server fails on robots.txt:
    [rp.read()] returns and the parser it leaves refuses every URL. *)
Definition refusing_world : World :=
  {| seeds_file := Some ["http://h/"];
     session_get := fun url _ => html_page url;
     robots_read := fun _ => Some (fun _ _ => false);
     soup_hrefs := fun html => Some (site_links (string_of_list_byte html));
     set_iter := fun links => reverse (elements links);
     random_uniform := fun _ a _ => a;
     mkdir_ok := fun _ => true;
     write_ok := fun _ => true;
     failed_write := fun _ => None;
     index_ok := fun _ => true;
     sha1_hexdigest := fun url => url;
     today := fun _ => "20240101";
     now_isoformat := fun _ => "2024-01-01T00:00:00";
     check_bracketed_netloc := fun _ => true;
     checknetloc_nfkc := fun _ => true |}.





(** * Properties *)

(** ** Strings *)

Lemma startswith_spec (s p : string) :
  startswith s p = true <-> exists t, s = p +:+ t.
Proof.
  revert s. induction p as [|a p IH]; intros s; simpl.
  - split; [intros _; by exists s | done].
  - destruct s as [|b s]; simpl.
    + split; [done | intros [t Ht]; discriminate].
    + rewrite andb_true_iff, IH. split.
      * intros [Hab [t ->]]. apply Ascii.eqb_eq in Hab as ->. by exists t.
      * intros [t Ht]. injection Ht as -> ->. split; [apply Ascii.eqb_refl | by exists t].
Qed.

Lemma is_empty_true (s : string) : is_empty s = true <-> s = EmptyString.
Proof. destruct s; simpl; split; congruence. Qed.

Lemma has_char_app (c : ascii) (s t : string) :
  has_char c (s +:+ t) = has_char c s || has_char c t.
Proof. induction s as [|a s IH]; simpl; [done|]. by rewrite IH, orb_assoc. Qed.

Lemma partition_no_char (c : ascii) (s : string) :
  partition c s = None <-> has_char c s = false.
Proof.
  induction s as [|a s IH]; simpl; [done|].
  destruct (Ascii.eqb a c); simpl; [done|].
  destruct (partition c s) as [[h r]|]; [|tauto].
  split; [done|]. intros H. apply IH in H. done.
Qed.

Lemma partition_app (c : ascii) (s t : string) :
  has_char c s = false -> partition c (s +:+ String c t) = Some (s, t).
Proof.
  induction s as [|a s IH]; simpl.
  - intros _. by rewrite Ascii.eqb_refl.
  - intros H. apply orb_false_iff in H as [Ha Hs]. rewrite Ha.
    by rewrite (IH Hs).
Qed.

Lemma partition_Some (c : ascii) (s h r : string) :
  partition c s = Some (h, r) -> s = h +:+ String c r /\ has_char c h = false.
Proof.
  revert h r. induction s as [|a s IH]; intros h r; simpl; [done|].
  destruct (Ascii.eqb a c) eqn:Hac.
  - intros [= <- <-]. apply Ascii.eqb_eq in Hac as ->. done.
  - destruct (partition c s) as [[h' r']|]; [|done].
    intros [= <- <-]. destruct (IH _ _ eq_refl) as [-> Hh].
    split; [done|]. simpl. by rewrite Hac.
Qed.

(** The first piece of [s.split(c)] holds no [c]. *)
Lemma split_head_no_char (c : ascii) (s : string) :
  has_char c (split_head c s) = false.
Proof.
  unfold split_head. induction s as [|a s IH]; simpl; [done|].
  destruct (Ascii.eqb a c) eqn:Hac; simpl; [done|].
  destruct (split c s) as [|h r]; simpl in *; rewrite Hac; [done|].
  by rewrite IH.
Qed.

Lemma remove_chars_app (p : ascii -> bool) (s t : string) :
  remove_chars p (s +:+ t) = remove_chars p s +:+ remove_chars p t.
Proof. induction s as [|a s IH]; simpl; [done|]. destruct (p a); simpl; by rewrite IH. Qed.

Lemma remove_chars_id (p : ascii -> bool) (s : string) :
  all_chars (fun c => negb (p c)) s = true -> remove_chars p s = s.
Proof.
  induction s as [|a s IH]; simpl; [done|].
  intros [Ha Hs]%andb_true_iff. apply negb_true_iff in Ha. rewrite Ha.
  by rewrite (IH Hs).
Qed.

Lemma all_chars_impl (p q : ascii -> bool) (s : string) :
  (forall c, p c = true -> q c = true) ->
  all_chars p s = true -> all_chars q s = true.
Proof.
  intros Hpq. induction s as [|a s IH]; simpl; [done|].
  intros [Ha Hs]%andb_true_iff. by rewrite (Hpq _ Ha), (IH Hs).
Qed.

Lemma all_chars_no_char (p : ascii -> bool) (c : ascii) (s : string) :
  p c = false -> all_chars p s = true -> has_char c s = false.
Proof.
  intros Hc. induction s as [|a s IH]; simpl; [done|].
  intros [Ha Hs]%andb_true_iff. rewrite (IH Hs), orb_false_r.
  destruct (Ascii.eqb_spec a c) as [->|]; [congruence | done].
Qed.

(** ** urllib.parse: the scheme of a URL *)

Lemma scheme_char_safe (c : ascii) :
  scheme_char c = true -> negb (unsafe_url_byte c) = true.
Proof. destruct c as [[] [] [] [] [] [] [] []]; vm_compute; congruence. Qed.

Lemma alpha_not_c0 (c : ascii) : is_alpha c = true -> c0_control_or_space c = false.
Proof. destruct c as [[] [] [] [] [] [] [] []]; vm_compute; congruence. Qed.

Section UrlFacts.

Variable cb cn : string -> bool.

Lemma urlsplit_with_scheme (sch rest dflt : string) :
  is_scheme sch = true ->
  urlsplit cb cn (sch +:+ String ":" rest) dflt
  = urlsplit_rest cb cn (lower sch) (remove_chars unsafe_url_byte rest).
Proof.
  intros Hs. destruct sch as [|c0 sch]; [done|].
  unfold is_scheme in Hs. apply andb_true_iff in Hs as [Hc0 Hall].
  apply andb_true_iff in Hc0 as [Hasc Halpha].
  unfold urlsplit.
  assert (lstrip c0_control_or_space (String c0 sch +:+ String ":" rest)
          = String c0 sch +:+ String ":" rest) as ->.
  { simpl. by rewrite (alpha_not_c0 _ Halpha). }
  rewrite remove_chars_app.
  rewrite (remove_chars_id unsafe_url_byte (String c0 sch)).
  2:{ eapply all_chars_impl; [apply scheme_char_safe | exact Hall]. }
  assert (remove_chars unsafe_url_byte (String ":" rest)
          = String ":" (remove_chars unsafe_url_byte rest)) as -> by done.
  rewrite partition_app.
  2:{ eapply (all_chars_no_char scheme_char); [done | exact Hall]. }
  rewrite Hasc, Halpha, Hall. reflexivity.
Qed.

(** The components of [urlsplit] other than the scheme do not depend on
    which scheme was written. *)
Lemma urlsplit_rest_scheme (s1 s2 url : string) :
  urlsplit_rest cb cn s2 url
  = match urlsplit_rest cb cn s1 url with
    | Some (_, nl, p, q, f) => Some (s2, nl, p, q, f)
    | None => None
    end.
Proof.
  unfold urlsplit_rest.
  destruct (startswith url "//"); [destruct (splitnetloc url) as [nl r]|];
    repeat case_match; simplify_eq/=; done.
Qed.

End UrlFacts.

(** ** Seeds *)

Example read_seeds_test :
  read_seeds (example_world
                ["# Comment line"; "https://example.com/"; EmptyString;
                 "  https://test.com/ "; "# Another comment"]
                (fun _ _ => RaisesConnectionError) (fun _ => []) elements
                (fun _ => true) (fun _ => true))
  = ["https://example.com/"; "https://test.com/"].
Proof. reflexivity. Qed.

(** ** Scope policy: [should_follow] *)

Lemma should_follow_defined (w : World) (url seed_url : string) :
  is_Some (parse_url w url) -> is_Some (parse_url w seed_url) ->
  is_Some (should_follow w url seed_url).
Proof.
  intros [u Hu] [s Hs]. unfold should_follow. rewrite Hu, Hs.
  repeat case_match; eauto.
Qed.

(** [rstrip] cuts off a suffix made of the characters to strip, and what
    it leaves does not end with one; it leaves nothing exactly when the
    whole string is made of them. *)
Lemma rstrip_split (q : ascii -> bool) (s : string) :
  exists tail, s = rstrip q s +:+ tail /\ all_chars q tail = true.
Proof.
  induction s as [|a s (tail & Hs & Ht)]; [by exists EmptyString|].
  simpl. destruct (is_empty (rstrip q s)) eqn:He; simpl.
  - apply is_empty_true in He. rewrite He in Hs. change (EmptyString +:+ tail) with tail in Hs.
    subst tail. destruct (q a) eqn:Hq.
    + exists (String a s). split; [done|]. simpl. by rewrite Hq, Ht.
    + exists s. split; [|done]. by rewrite He.
  - exists tail. split; [|done].
    change (String a (rstrip q s) +:+ tail) with (String a (rstrip q s +:+ tail)).
    by rewrite <- Hs.
Qed.

Lemma rstrip_last (q : ascii -> bool) (s t : string) (a : ascii) :
  rstrip q s = t +:+ String a EmptyString -> q a = false.
Proof.
  revert t. induction s as [|b s IH]; intros t; simpl.
  { by destruct t. }
  destruct (is_empty (rstrip q s)) eqn:He; simpl.
  - apply is_empty_true in He. rewrite He. destruct (q b) eqn:Hq.
    + by destruct t.
    + destruct t as [|c t]; [by intros [= ->]|].
      change (String c t +:+ String a EmptyString)
        with (String c (t +:+ String a EmptyString)).
      intros [= _ H]. by destruct t.
  - destruct t as [|c t].
    + intros [= _ H]. by rewrite H in He.
    + change (String c t +:+ String a EmptyString)
        with (String c (t +:+ String a EmptyString)).
      intros [= _ H]. by apply (IH t).
Qed.

Lemma rstrip_empty (q : ascii -> bool) (s : string) :
  rstrip q s = EmptyString <-> all_chars q s = true.
Proof.
  induction s as [|a s IH]; simpl; [done|].
  destruct (is_empty (rstrip q s)) eqn:He; simpl.
  - apply is_empty_true in He. apply IH in He. rewrite He, andb_true_r.
    destruct (q a); done.
  - split; [done|]. intros [_ H]%andb_true_iff. apply IH in H. by rewrite H in He.
Qed.

(** When [should_follow] answers true. *)
Lemma should_follow_true_spec (w : World) (url seed_url : string) :
  should_follow w url seed_url = Some true <->
  exists url_parsed seed_parsed,
    parse_url w url = Some url_parsed /\
    parse_url w seed_url = Some seed_parsed /\
    netloc url_parsed = netloc seed_parsed /\
    (rstrip slash (path seed_parsed) = EmptyString \/
     rstrip slash (path seed_parsed) = "/" \/
     exists rest, path url_parsed = rstrip slash (path seed_parsed) +:+ rest).
Proof.
  unfold should_follow. split.
  - destruct (parse_url w url) as [u|]; [|done].
    destruct (parse_url w seed_url) as [s|]; [|done].
    destruct (String.eqb_spec (netloc u) (netloc s)) as [Hnl|]; simpl; [|done].
    intros H. exists u, s. repeat split; [done|].
    destruct (is_empty _) eqn:He; simpl in H.
    { left. by apply is_empty_true. }
    destruct (String.eqb_spec (rstrip slash (path s)) "/") as [Hr|]; [by right; left|].
    destruct (startswith _ _) eqn:Hsw; simpl in H; [|done].
    right; right. by apply startswith_spec.
  - intros (u & s & -> & -> & Hnl & Hp).
    rewrite Hnl, String.eqb_refl. simpl.
    destruct (is_empty _) eqn:He; simpl; [done|].
    destruct (String.eqb_spec (rstrip slash (path s)) "/") as [Hr|Hr]; [done|].
    destruct Hp as [Hp|[Hp|Hp]].
    + apply is_empty_true in Hp. congruence.
    + done.
    + apply startswith_spec in Hp. by rewrite Hp.
Qed.

(** C4, amended. [should_follow] answers true exactly when both URLs parse,
    the candidate's network location, user information included, equals
    the seed's as a string, and the seed's path with its trailing slashes
    removed is empty, or is the root, or is a literal string prefix of the
    candidate's path.  Then the hosts (with ports) are equal too and the
    condition of the specification holds.  The trimmed path is the seed's
    path without its longest run of trailing slashes: it never ends with a
    slash, so it is never the root, and it is empty exactly when the
    seed's path is made of slashes only. *)
Theorem should_follow_true_iff (w : World) (url seed_url : string) :
  (should_follow w url seed_url = Some true <->
   exists url_parsed seed_parsed,
     parse_url w url = Some url_parsed /\
     parse_url w seed_url = Some seed_parsed /\
     netloc url_parsed = netloc seed_parsed /\
     (rstrip slash (path seed_parsed) = EmptyString \/
      rstrip slash (path seed_parsed) = "/" \/
      exists rest, path url_parsed = rstrip slash (path seed_parsed) +:+ rest)) /\
  (should_follow w url seed_url = Some true ->
   same_host_and_path_prefix w url seed_url) /\
  (forall seed_path : string,
     (exists k, seed_path = rstrip slash seed_path +:+ k /\ all_chars slash k = true) /\
     (forall t, rstrip slash seed_path <> t +:+ "/") /\
     (rstrip slash seed_path = EmptyString <-> all_chars slash seed_path = true)).
Proof.
  split; [apply should_follow_true_spec|]. split.
  - intros (u & sd & Hu & Hs & Hnl & Hp)%should_follow_true_spec.
    exists u, sd. repeat split; [done..| by rewrite Hnl |].
    destruct Hp as [Hp|[Hp|Hp]]; [by left | by right; left | right; right].
    by apply startswith_spec.
  - intros seed_path. split; [apply rstrip_split|]. split; [|apply rstrip_empty].
    intros t Ht. by apply rstrip_last in Ht.
Qed.

(** C4 as stated fails: a seed that carries user information has the
    host and port of the candidate, and its trimmed path is a prefix of
    the candidate's path, yet the candidate is not followed. *)
Lemma should_follow_same_host_refused :
  same_host_and_path_prefix offline_world "http://h/docs/a" "http://u:p@h/docs/" /\
  should_follow offline_world "http://h/docs/a" "http://u:p@h/docs/" = Some false.
Proof.
  split; [|vm_compute; reflexivity].
  exists (mkParseResult "http" "h" "/docs/a" EmptyString EmptyString EmptyString),
    (mkParseResult "http" "u:p@h" "/docs/" EmptyString EmptyString EmptyString).
  repeat split; [vm_compute; reflexivity..|]. right; right. vm_compute. reflexivity.
Qed.

Example should_follow_tests :
  should_follow offline_world "https://example.com/docs/page1" "https://example.com/docs/" = Some true /\
  should_follow offline_world "https://other.com/docs/" "https://example.com/docs/" = Some false /\
  should_follow offline_world "https://example.com/blog/" "https://example.com/docs/" = Some false /\
  should_follow offline_world "https://example.com/anything" "https://example.com/" = Some true /\
  should_follow offline_world "https://example.com/docsX" "https://example.com/docs" = Some true /\
  should_follow offline_world "https://example.com:8080/docs/a" "https://example.com/docs" = Some false.
Proof. vm_compute. done. Qed.

(** The path that [urlsplit] cuts out of a text free of [c] is free of [c]. *)
Lemma span_until_no_char (p : ascii -> bool) (c : ascii) (s : string) :
  has_char c s = false -> has_char c (span_until p s).2 = false.
Proof.
  induction s as [|a s IH]; simpl; [done|].
  intros [Ha Hs]%orb_false_iff. destruct (p a); simpl.
  - by rewrite Ha, Hs.
  - specialize (IH Hs). by destruct (span_until p s).
Qed.

Lemma drop_no_char (n : nat) (c : ascii) (s : string) :
  has_char c s = false -> has_char c (drop n s) = false.
Proof.
  revert s. induction n as [|n IH]; intros s; simpl; [done|].
  destruct s as [|a s]; simpl; [done|]. intros [_ Hs]%orb_false_iff. by apply IH.
Qed.

Lemma partition_no_char_l (c d : ascii) (s h r : string) :
  has_char c s = false -> partition d s = Some (h, r) -> has_char c h = false.
Proof.
  intros Hs Hp. apply partition_Some in Hp as [-> _].
  rewrite has_char_app in Hs. by apply orb_false_iff in Hs as [? _].
Qed.

Lemma remove_chars_no_char (p : ascii -> bool) (c : ascii) (s : string) :
  has_char c s = false -> has_char c (remove_chars p s) = false.
Proof.
  induction s as [|a s IH]; simpl; [done|].
  intros [Ha Hs]%orb_false_iff. destruct (p a); simpl; [by apply IH|].
  by rewrite Ha, IH.
Qed.

Lemma urlsplit_rest_no_char (cb cn : string -> bool) (c : ascii)
    (sch url a nl p q f : string) :
  has_char c url = false ->
  urlsplit_rest cb cn sch url = Some (a, nl, p, q, f) ->
  has_char c p = false.
Proof.
  intros Hc. unfold urlsplit_rest, splitnetloc.
  pose proof (span_until_no_char netloc_delim c (drop 2 url)
                (drop_no_char 2 c url Hc)) as Hspan.
  assert (forall u nl' ok,
            has_char c u = false ->
            (if negb ok then None
             else
               let '(u1, frag) :=
                 match partition "#" u with
                 | Some (x, y) => (x, y)
                 | None => (u, EmptyString)
                 end in
               let '(u2, qry) :=
                 match partition "?" u1 with
                 | Some (x, y) => (x, y)
                 | None => (u1, EmptyString)
                 end in
               if checknetloc cn nl' then Some (sch, nl', u2, qry, frag) else None)
            = Some (a, nl, p, q, f) ->
            has_char c p = false) as Htail.
  { intros u nl' ok Hu. destruct (negb ok); [done|].
    destruct (partition "#" u) as [[x y]|] eqn:E1.
    - pose proof (partition_no_char_l _ _ _ _ _ Hu E1) as Hx.
      destruct (partition "?" x) as [[x' y']|] eqn:E2;
        destruct (checknetloc cn nl'); intros; simplify_eq; [|done].
      by eapply partition_no_char_l.
    - destruct (partition "?" u) as [[x' y']|] eqn:E2;
        destruct (checknetloc cn nl'); intros; simplify_eq; [|done].
      by eapply partition_no_char_l. }
  destruct (startswith url "//").
  - destruct (span_until netloc_delim (drop 2 url)) as [nl' r]. by apply Htail.
  - by apply Htail.
Qed.

(** The parse of [sch:rest] depends on [sch] through the scheme field and
    through the treatment of [;parameters] only. *)
Lemma parse_url_scheme (w : World) (sch1 sch2 rest : string) :
  is_scheme sch1 = true -> is_scheme sch2 = true ->
  mem (lower sch1) uses_params = mem (lower sch2) uses_params
  \/ has_char ";" rest = false ->
  match parse_url w (sch1 +:+ String ":" rest),
        parse_url w (sch2 +:+ String ":" rest) with
  | Some p1, Some p2 =>
      netloc p1 = netloc p2 /\ path p1 = path p2 /\ params p1 = params p2 /\
      query p1 = query p2 /\ fragment p1 = fragment p2 /\
      scheme p1 = lower sch1 /\ scheme p2 = lower sch2
  | None, None => True
  | _, _ => False
  end.
Proof.
  intros H1 H2 Hm. unfold parse_url, urlparse, urlparse_with.
  rewrite !urlsplit_with_scheme by done.
  rewrite (urlsplit_rest_scheme _ _ EmptyString (lower sch1)).
  rewrite (urlsplit_rest_scheme _ _ EmptyString (lower sch2)).
  destruct (urlsplit_rest _ _ EmptyString _) as [[[[[a nl] p] q] f]|] eqn:Hrest;
    [|done].
  destruct Hm as [Hm|Hsemi].
  - rewrite Hm. destruct (_ && _); [destruct (splitparams p)|]; simpl; done.
  - apply (urlsplit_rest_no_char _ _ ";") in Hrest;
      [|by apply remove_chars_no_char].
    rewrite Hrest, !andb_false_r. simpl. done.
Qed.

(** C10, amended. Replacing the scheme of either argument by another
    scheme leaves [should_follow] unchanged whenever [urlparse] treats the
    two schemes alike, that is, both are in [uses_params] (as http and
    https are) or both are outside it, and also whenever the URL holds no
    [;]. *)
Theorem should_follow_scheme_change (w : World) (sch1 sch2 rest other : string) :
  is_scheme sch1 = true -> is_scheme sch2 = true ->
  mem (lower sch1) uses_params = mem (lower sch2) uses_params
  \/ has_char ";" rest = false ->
  should_follow w (sch1 +:+ String ":" rest) other
  = should_follow w (sch2 +:+ String ":" rest) other /\
  should_follow w other (sch1 +:+ String ":" rest)
  = should_follow w other (sch2 +:+ String ":" rest).
Proof.
  intros H1 H2 Hm. pose proof (parse_url_scheme w sch1 sch2 rest H1 H2 Hm) as Hp.
  unfold should_follow.
  destruct (parse_url w (sch1 +:+ String ":" rest)) as [p1|],
           (parse_url w (sch2 +:+ String ":" rest)) as [p2|]; try done.
  destruct Hp as (-> & -> & _). done.
Qed.

Lemma should_follow_scheme_change_witness :
  is_scheme "https" = true /\ is_scheme "http" = true /\
  (mem (lower "https") uses_params = mem (lower "http") uses_params
   \/ has_char ";" "//h/docs/x" = false) /\
  should_follow offline_world "https://h/docs/x" "https://h/docs/"
  = should_follow offline_world "http://h/docs/x" "https://h/docs/" /\
  should_follow offline_world "https://h/docs/x" "https://h/docs/"
  = should_follow offline_world "https://h/docs/x" "http://h/docs/".
Proof.
  split; [reflexivity|]. split; [reflexivity|]. split; [by left|]. split.
  - exact (proj1 (should_follow_scheme_change offline_world "https" "http"
                    "//h/docs/x" "https://h/docs/" eq_refl eq_refl
                    (or_introl eq_refl))).
  - exact (proj2 (should_follow_scheme_change offline_world "https" "http"
                    "//h/docs/" "https://h/docs/x" eq_refl eq_refl
                    (or_introl eq_refl))).
Defined.

(** C10 as stated fails: with the seed [http://h/a;b] the path is [/a] and
    [http://h/ax] is in scope, with [ws://h/a;b] the path is [/a;b] and the
    same candidate is out of scope. *)
Lemma should_follow_scheme_sensitive :
  ~ (forall sch1 sch2 rest other : string,
       is_scheme sch1 = true -> is_scheme sch2 = true ->
       should_follow offline_world other (sch1 +:+ String ":" rest)
       = should_follow offline_world other (sch2 +:+ String ":" rest)).
Proof.
  intros H. specialize (H "http" "ws" "//h/a;b" "http://h/ax" eq_refl eq_refl).
  vm_compute in H. discriminate.
Qed.

(** ** Fetcher: [fetch_page] *)

Ltac split_trace pre :=
  repeat (destruct pre as [|? pre]; simplify_eq/=).

(** C5. [fetch_page] calls [session.get] at most three times; after an
    attempt that ends in a timeout or a connection error it sleeps
    [2^attempt] seconds and tries again, except after the third attempt,
    and after any other outcome it stops; three transient failures give
    [(None, 0, '', 0)], and two transient failures followed by a response
    give that response. *)
Theorem fetch_page_retries (w : World) (url : string) :
  let evs := (fetch_page w url).1 in
  let res := (fetch_page w url).2 in
  (length (gets evs) <= 3)%nat /\
  (forall pre k post, evs = pre ++ Get url k :: post ->
     (transient (session_get w url k) -> (k < 2)%nat ->
      exists post', post = Backoff (2 ^ Z.of_nat k) :: Get url (S k) :: post') /\
     (transient (session_get w url k) -> k = 2%nat -> post = []) /\
     (~ transient (session_get w url k) -> post = [])) /\
  (transient (session_get w url 0) -> transient (session_get w url 1) ->
   transient (session_get w url 2) ->
   res = (None, 0, EmptyString, 0) /\
   evs = [Get url 0; Backoff 1; Get url 1; Backoff 2; Get url 2]) /\
  (forall r, transient (session_get w url 0) -> transient (session_get w url 1) ->
   session_get w url 2 = Responded r ->
   res = (Some (content r), status_code r,
          lower (default EmptyString (content_type_header r)),
          Z.of_nat (length (content r))) /\
   evs = [Get url 0; Backoff 1; Get url 1; Backoff 2; Get url 2]).
Proof.
  unfold fetch_page, transient. simpl.
  destruct (session_get w url 0) as [r0| | |] eqn:H0;
    [| destruct (session_get w url 1) as [r1| | |] eqn:H1;
       [| destruct (session_get w url 2) as [r2| | |] eqn:H2 ..| ]
     | destruct (session_get w url 1) as [r1| | |] eqn:H1;
       [| destruct (session_get w url 2) as [r2| | |] eqn:H2 ..| ]
     | ]; simpl.
  all: split; [lia|].
  all: split; [intros pre k post Hsplit; split_trace pre;
               rewrite ?H0, ?H1, ?H2;
               (split; [|split]); intros; try lia; try naive_solver|].
  all: split; [intros; try naive_solver | intros r; intros; try naive_solver].
Qed.

Lemma fetch_page_retries_witness :
  let w := example_world []
             (fun url k => if (k <? 2)%nat then RaisesTimeout else html_page url)
             (fun _ => []) elements (fun _ => true) (fun _ => true) in
  transient (session_get w "https://h/" 0) /\
  transient (session_get w "https://h/" 1) /\
  session_get w "https://h/" 2 = html_page "https://h/" /\
  (fetch_page w "https://h/").1
  = [Get "https://h/" 0; Backoff 1; Get "https://h/" 1; Backoff 2;
     Get "https://h/" 2] /\
  (fetch_page w "https://h/").2
  = (Some (body_of "https://h/"), 200, "text/html; charset=utf-8", 10).
Proof.
  intros w.
  assert (transient (session_get w "https://h/" 0)) as H0 by (by left).
  assert (transient (session_get w "https://h/" 1)) as H1 by (by left).
  split; [exact H0|]. split; [exact H1|]. split; [reflexivity|].
  destruct (fetch_page_retries w "https://h/") as (_ & _ & _ & H).
  destruct (H (mkResponse (body_of "https://h/") 200
                 (Some "text/html; charset=utf-8")) H0 H1 eq_refl)
    as [Hres Hevs].
  split; [exact Hevs | exact Hres].
Defined.

(** ** Link extractor: [parse_links] *)

Lemma collect_links_mono (w : World) (base_url : string) (hrefs : list string)
    (links : gset string) :
  links ⊆ collect_links w base_url hrefs links.
Proof.
  revert links. induction hrefs as [|href rest IH]; intros links; simpl; [done|].
  destruct (join_url w base_url href) as [u|]; [|done].
  destruct (negb _); [|by apply IH].
  etrans; [|apply IH]. set_solver.
Qed.

Lemma collect_links_sound (w : World) (base_url : string) (hrefs : list string)
    (links : gset string) (x : string) :
  x ∈ collect_links w base_url hrefs links ->
  x ∈ links \/
  (x <> EmptyString /\ has_char "#" x = false /\
   exists href absolute_url,
     href ∈ hrefs /\ join_url w base_url href = Some absolute_url /\
     x = split_head "#" absolute_url).
Proof.
  revert links. induction hrefs as [|href rest IH]; intros links; simpl; [by left|].
  destruct (join_url w base_url href) as [u|] eqn:Hj; [|by left].
  destruct (is_empty (split_head "#" u)) eqn:He; simpl; intros Hx;
    apply IH in Hx as [Hx|(Hne & Hh & href' & u' & Hin & Hj' & ->)].
  - by left.
  - right. repeat split; [done..|]. exists href', u'. by rewrite elem_of_cons; auto.
  - apply elem_of_union in Hx as [Hx|Hx]; [|by left].
    apply elem_of_singleton in Hx as ->. right. split; [|split].
    + intros Hx. apply is_empty_true in Hx. congruence.
    + apply split_head_no_char.
    + exists href, u. by rewrite elem_of_cons; auto.
  - right. repeat split; [done..|]. exists href', u'. by rewrite elem_of_cons; auto.
Qed.

Lemma collect_links_complete (w : World) (base_url : string) (hrefs : list string)
    (links : gset string) (href absolute_url : string) :
  Forall (fun href => is_Some (join_url w base_url href)) hrefs ->
  href ∈ hrefs -> join_url w base_url href = Some absolute_url ->
  split_head "#" absolute_url <> EmptyString ->
  split_head "#" absolute_url ∈ collect_links w base_url hrefs links.
Proof.
  intros Hall Hin Hj Hne. revert links.
  induction Hall as [|h rest [u Hu] Hall IH]; intros links; [by apply elem_of_nil in Hin|].
  simpl. rewrite Hu. apply elem_of_cons in Hin as [->|Hin].
  - rewrite Hj in Hu. injection Hu as <-.
    destruct (is_empty _) eqn:He; simpl.
    { apply is_empty_true in He. done. }
    apply collect_links_mono. set_solver.
  - destruct (negb _); by apply IH.
Qed.

(** The anchors [/a], [/b], [https://h/c] and [#frag] on the page
    [https://h/]: the fragment-only anchor contributes the base URL. *)
Lemma parse_links_anchors (w : World) (html : bytes) :
  soup_hrefs w html = Some ["/a"; "/b"; "https://h/c"; "#frag"] ->
  parse_links w html "https://h/"
  = {[ "https://h/a"; "https://h/b"; "https://h/c"; "https://h/" ]}.
Proof.
  intros H. unfold parse_links. rewrite H.
  unfold collect_links, join_url.
  assert (forall href, href ∈ ["/a"; "/b"; "https://h/c"; "#frag"] ->
          urljoin (check_bracketed_netloc w) (checknetloc_nfkc w) "https://h/" href
          = urljoin (fun _ => true) (fun _ => true) "https://h/" href) as Hj.
  { intros href Hin. repeat (apply elem_of_cons in Hin as [->|Hin]; [reflexivity|]).
    by apply elem_of_nil in Hin. }
  rewrite !Hj by (repeat constructor).
  vm_compute urljoin. simpl. set_solver.
Qed.

(** C7, amended. Every extracted link is an anchor target resolved against
    the base URL with its fragment cut off, is not empty and holds no [#];
    when all targets resolve, every such non-empty result is extracted; and
    for the anchors [/a], [/b], [https://h/c] and [#frag] with base
    [https://h/] the extracted set is
    [{https://h/a, https://h/b, https://h/c, https://h/}]. *)
Theorem parse_links_spec (w : World) (html : bytes) (base_url : string) :
  (forall x, x ∈ parse_links w html base_url ->
     x <> EmptyString /\ has_char "#" x = false /\
     exists hrefs href absolute_url,
       soup_hrefs w html = Some hrefs /\ href ∈ hrefs /\
       join_url w base_url href = Some absolute_url /\
       x = split_head "#" absolute_url) /\
  (forall hrefs href absolute_url,
     soup_hrefs w html = Some hrefs ->
     Forall (fun href => is_Some (join_url w base_url href)) hrefs ->
     href ∈ hrefs -> join_url w base_url href = Some absolute_url ->
     split_head "#" absolute_url <> EmptyString ->
     split_head "#" absolute_url ∈ parse_links w html base_url) /\
  (soup_hrefs w html = Some ["/a"; "/b"; "https://h/c"; "#frag"] ->
   parse_links w html "https://h/"
   = {[ "https://h/a"; "https://h/b"; "https://h/c"; "https://h/" ]}).
Proof.
  split; [|split].
  - unfold parse_links. intros x Hx.
    destruct (soup_hrefs w html) as [hrefs|]; [|set_solver].
    apply collect_links_sound in Hx as [Hx|(Hne & Hh & href & u & Hin & Hj & ->)];
      [set_solver|].
    repeat split; [done..|]. by exists hrefs, href, u.
  - intros hrefs href u Hs Hall Hin Hj Hne. unfold parse_links. rewrite Hs.
    by apply (collect_links_complete w base_url hrefs ∅ href).
  - apply parse_links_anchors.
Qed.

Lemma parse_links_spec_witness :
  soup_hrefs anchors_world (body_of "https://h/")
  = Some ["/a"; "/b"; "https://h/c"; "#frag"] /\
  parse_links anchors_world (body_of "https://h/") "https://h/"
  = {[ "https://h/a"; "https://h/b"; "https://h/c"; "https://h/" ]}.
Proof.
  split; [reflexivity|].
  exact (proj2 (proj2 (parse_links_spec anchors_world (body_of "https://h/")
                         "https://h/")) eq_refl).
Defined.

(** C7 as stated fails: the set extracted from the four anchors is not
    [{https://h/a, https://h/b, https://h/c}], it also holds [https://h/]. *)
Lemma parse_links_anchors_not_three :
  parse_links anchors_world (body_of "https://h/") "https://h/"
  <> {[ "https://h/a"; "https://h/b"; "https://h/c" ]}.
Proof.
  rewrite (parse_links_anchors anchors_world _ eq_refl). intros H.
  assert ("https://h/" ∈ ({[ "https://h/a"; "https://h/b"; "https://h/c" ]} : gset string))
    as Hin by (rewrite <- H; set_solver).
  set_solver.
Qed.

(** ** Traversal engine: one iteration of [crawl_seed] *)

Lemma bodies_app (w : World) (l k : list Event) :
  bodies w (l ++ k) = (bodies w l + bodies w k)%nat.
Proof. unfold bodies. by rewrite omap_app, length_app. Qed.

Lemma quiet_refl (w : World) (s : State) : quiet w s s.
Proof. by unfold quiet. Qed.

Lemma quiet_trans (w : World) (s1 s2 s3 : State) :
  quiet w s1 s2 -> quiet w s2 s3 -> quiet w s1 s3.
Proof. unfold quiet. intros (?&?&?&?&?&?) (?&?&?&?&?&?). repeat split; congruence. Qed.

Ltac unfold_monad :=
  unfold bind, ret, raise, emit, emit_all, get_state, of_option,
    set_visited, set_robots_cache, set_pages_crawled, set_files, set_index in *.

Ltac monad_cases :=
  repeat first [progress unfold_monad | progress simplify_eq/= | case_match].

Ltac quiet_step :=
  unfold quiet, visits, fetches, dequeues, bodies; simpl;
  rewrite ?omap_app, ?length_app; simpl; rewrite ?app_nil_r, ?Nat.add_0_r;
  done.

Lemma can_fetch_quiet (args : Args) (w : World) (url : string) (s s' : State)
    (r : Result bool) :
  can_fetch args w url s = (r, s') -> quiet w s s'.
Proof.
  unfold can_fetch, get_robots_parser. intros H.
  monad_cases; quiet_step.
Qed.

Lemma save_raw_quiet (w : World) (content : bytes) (url : string) (is_file : bool)
    (s s' : State) (r : Result string) :
  save_raw w content url is_file s = (r, s') -> quiet w s s'.
Proof.
  unfold save_raw, make_dirs. intros H.
  monad_cases; quiet_step.
Qed.

Lemma log_metadata_quiet (w : World) (url : string) (status : Z) (ctype path : string)
    (d : Z) (parent : string) (len : Z) (s s' : State) (r : Result unit) :
  log_metadata w url status ctype path d parent len s = (r, s') -> quiet w s s'.
Proof.
  unfold log_metadata. intros H.
  monad_cases; quiet_step.
Qed.

(** [fetch_page] only calls [session.get] and sleeps, and exactly one of
    its calls is answered when it returns a body. *)
Lemma fetch_attempts_trace (w : World) (url : string) (attempts : list nat) :
  let evs := (fetch_attempts w url attempts).1 in
  let res := (fetch_attempts w url attempts).2 in
  visits evs = [] /\ fetches evs = [] /\ dequeues evs = [] /\
  bodies w evs = match res.1.1.1 with Some _ => 1%nat | None => 0%nat end.
Proof.
  induction attempts as [|k rest IH]; simpl; [done|].
  destruct (session_get w url k) eqn:Hk; simpl.
  1,4: unfold bodies; simpl; by rewrite Hk.
  all: destruct (fetch_attempts w url rest) as [evs res]; simpl in *;
    destruct IH as (Hv & Hf & Hd & Hb);
    unfold visits, fetches, dequeues, bodies in *; simpl;
    rewrite !omap_app, ?length_app, Hk; simpl;
    destruct (k <? 2)%nat; simpl; done.
Qed.

Lemma fetch_page_trace (w : World) (url : string) (evs : list Event)
    (content : option bytes) (status : Z) (ctype : string) (len : Z) :
  fetch_page w url = (evs, (content, status, ctype, len)) ->
  visits evs = [] /\ fetches evs = [] /\ dequeues evs = [] /\
  bodies w evs = match content with Some _ => 1%nat | None => 0%nat end.
Proof.
  intros H. pose proof (fetch_attempts_trace w url (seq 0 3)) as Ht.
  unfold fetch_page in H. by rewrite H in Ht.
Qed.

Ltac use_quiet :=
  repeat match goal with
    | H : can_fetch _ _ _ _ = _ |- _ => apply can_fetch_quiet in H
    | H : save_raw _ _ _ _ _ = _ |- _ => apply save_raw_quiet in H
    | H : log_metadata _ _ _ _ _ _ _ _ _ = _ |- _ => apply log_metadata_quiet in H
    | H : fetch_page _ _ = _ |- _ => apply fetch_page_trace in H
    end.

Lemma visits_app (l k : list Event) : visits (l ++ k) = visits l ++ visits k.
Proof. apply omap_app. Qed.

Lemma fetches_app (l k : list Event) : fetches (l ++ k) = fetches l ++ fetches k.
Proof. apply omap_app. Qed.

Lemma dequeues_app (l k : list Event) : dequeues (l ++ k) = dequeues l ++ dequeues k.
Proof. apply omap_app. Qed.

Ltac trace_simpl :=
  unfold quiet in *; simpl in *;
  rewrite ?visits_app, ?fetches_app, ?dequeues_app, ?bodies_app in *; simpl in *;
  rewrite ?app_nil_r, ?Nat.add_0_r in *.

(** What one iteration of the [while] loop does to the crawler: it takes
    one entry off the queue and either skips it, or marks its URL visited
    and fetches it, counting the page when a body came back. *)
Lemma crawl_seed_body_spec (args : Args) (w : World) (seed_url url : string)
    (d : Z) (parent_url : string) (queue : list Entry) (s s' : State)
    (r : Result (list Entry)) :
  crawl_seed_body args w seed_url (url, d, parent_url) queue s = (r, s') ->
  dequeues (trace s') = dequeues (trace s) ++ [url] /\
  ((visits (trace s') = visits (trace s) /\
    fetches (trace s') = fetches (trace s) /\
    bodies w (trace s') = bodies w (trace s) /\
    visited_urls s' = visited_urls s /\
    pages_crawled s' = pages_crawled s) \/
   ((url ∉ visited_urls s) /\ d <= depth args /\
    visits (trace s') = visits (trace s) ++ [url] /\
    fetches (trace s') = fetches (trace s) ++ [(url, d)] /\
    visited_urls s' = {[url]} ∪ visited_urls s /\
    exists b : nat, (b <= 1)%nat /\
      bodies w (trace s') = (bodies w (trace s) + b)%nat /\
      pages_crawled s' = pages_crawled s + Z.of_nat b)).
Proof.
  unfold crawl_seed_body, add_visited, polite_delay. intros H.
  monad_cases; use_quiet; trace_simpl; destruct_and?;
    repeat match goal with
      | H : bool_decide _ = false |- _ => apply bool_decide_eq_false in H
      | H : (_ >? _) = false |- _ => rewrite Z.gtb_ltb in H; apply Z.ltb_ge in H
      | H : visits ?l = [] |- _ => is_var l; rewrite ?H in *; clear H
      | H : fetches ?l = [] |- _ => is_var l; rewrite ?H in *; clear H
      | H : dequeues ?l = [] |- _ => is_var l; rewrite ?H in *; clear H
      end;
    rewrite ?app_nil_r in *.
  all: try (split; [congruence|]).
  all: try solve [left; repeat split; first [congruence | lia]].
  all: try solve [right; repeat split; [done | done | congruence | congruence | congruence |];
            first [ exists 0%nat; repeat split; [lia | lia | lia]
                  | exists 1%nat; repeat split; [lia | lia | lia] ]].
Qed.


(** An entry beyond the depth bound is dropped. *)
Lemma crawl_seed_body_too_deep (args : Args) (w : World) (seed_url url : string)
    (d : Z) (parent_url : string) (queue : list Entry) (s : State) :
  depth args < d ->
  crawl_seed_body args w seed_url (url, d, parent_url) queue s
  = (Ok queue, dequeued s url d parent_url).
Proof.
  intros Hd. unfold crawl_seed_body. unfold_monad. simpl.
  destruct (bool_decide _); [done|].
  assert ((d >? depth args) = true) as -> by lia. done.
Qed.

(** ** The loop [for link in links] *)

Lemma enqueue_links_spec (w : World) (seed_url url : string) (d : Z)
    (visited : gset string) (links : list string) (queue queue' : list Entry) :
  enqueue_links w seed_url url d visited queue links = Some queue' ->
  queue' = queue ++ List.map (link_entry url d)
                      (List.filter (in_scope w seed_url visited) links).
Proof.
  revert queue. induction links as [|link rest IH]; intros queue; simpl.
  - intros [= <-]. by rewrite app_nil_r.
  - unfold enqueue_link, in_scope at 1, link_entry at 1.
    destruct (bool_decide (link ∈ visited)); simpl; [apply IH|].
    destruct (should_follow w link seed_url) as [[]|]; simpl; [|apply IH|done].
    destruct (has_file_extension link); intros H; apply IH in H;
      by rewrite <- app_assoc in H.
Qed.

Lemma enqueue_links_defined (w : World) (seed_url url : string) (d : Z)
    (visited : gset string) (links : list string) (queue : list Entry) :
  (forall link, link ∈ links -> link ∉ visited ->
     is_Some (should_follow w link seed_url)) ->
  is_Some (enqueue_links w seed_url url d visited queue links).
Proof.
  revert queue. induction links as [|link rest IH]; intros queue Hdef; simpl; [eauto|].
  unfold enqueue_link.
  destruct (bool_decide (link ∈ visited)) eqn:Hv.
  - apply IH. intros l Hl. apply Hdef. set_solver.
  - apply bool_decide_eq_false in Hv.
    destruct (Hdef link) as [[] Hb]; [set_solver | done | ..]; rewrite Hb.
    + destruct (has_file_extension link); apply IH; intros l Hl; apply Hdef; set_solver.
    + apply IH; intros l Hl; apply Hdef; set_solver.
Qed.

Lemma in_scope_true (w : World) (seed_url : string) (visited : gset string)
    (link : string) :
  in_scope w seed_url visited link = true <->
  (link ∉ visited) /\ should_follow w link seed_url = Some true.
Proof.
  unfold in_scope. rewrite andb_true_iff, negb_true_iff, bool_decide_eq_false,
    bool_decide_eq_true. done.
Qed.

(** ** The invariant of a run *)

#[local] Arguments crawl_seed_body : simpl never.

Lemma run_inv_init (args : Args) (w : World) : run_inv args w init.
Proof.
  unfold run_inv, init; simpl.
  split; [done|]. split; [apply NoDup_nil_2|]. split; [done|].
  split; [apply Forall_nil_2|]. split; [done | lia].
Qed.

Lemma run_inv_step (args : Args) (w : World) (c c' : Control) (s s' : State) :
  run_inv args w s -> step args w c s = (c', s') -> run_inv args w s'.
Proof.
  intros Hinv Hstep.
  destruct c as [[|seed rest]|seed_url [|[[url d] parent_url] queue] rest| |e];
    simpl in Hstep; try (by simplify_eq).
  - by destruct (budget_reached args s); simplify_eq.
  - destruct (budget_left args s) eqn:Hb; [|by simplify_eq].
    revert Hstep.
    destruct (crawl_seed_body args w seed_url (url, d, parent_url) queue s)
      as [r s1] eqn:Hbody.
    intros Hstep.
    assert (s1 = s') as -> by (destruct r; by simplify_eq).
    clear Hstep.
    apply crawl_seed_body_spec in Hbody as [_ Hbody].
    destruct Hinv as (Hv & Hnd & Hf & Hd & Hp & Hmax).
    destruct Hbody as [(Hv' & Hf' & Hb' & Hvis & Hpc)
                      |(Hnew & Hle & Hv' & Hf' & Hvis & b & Hb1 & Hb' & Hpc)];
      unfold run_inv.
    + rewrite Hv', Hf', Hb', Hvis, Hpc. done.
    + rewrite Hv', Hf', Hb', Hvis, Hpc. repeat split.
      * rewrite list_to_set_app_L, Hv. set_solver.
      * apply NoDup_app. repeat split; [done| |apply NoDup_singleton].
        intros x Hx ->%list_elem_of_singleton. apply Hnew. rewrite Hv.
        by apply elem_of_list_to_set.
      * by rewrite fmap_app, Hf.
      * apply Forall_app. split; [done|]. by repeat constructor.
      * rewrite Hp. lia.
      * intros Hpos. unfold budget_left in Hb. lia.
Qed.

Lemma run_inv_steps (args : Args) (w : World) (n : nat) (c : Control) (s : State) :
  run_inv args w s -> run_inv args w (steps args w n c s).2.
Proof.
  revert c s. induction n as [|n IH]; intros c s Hinv; simpl; [done|].
  destruct (step args w c s) as [c' s'] eqn:Hstep.
  apply IH. by eapply run_inv_step.
Qed.

Lemma run_inv_run (args : Args) (w : World) (n : nat) :
  run_inv args w (run args w n).2.
Proof. apply run_inv_steps, run_inv_init. Qed.


Lemma steps_add (args : Args) (w : World) (n m : nat) (c : Control) (s : State) :
  steps args w (n + m) c s
  = steps args w m (steps args w n c s).1 (steps args w n c s).2.
Proof.
  revert c s. induction n as [|n IH]; intros c s; simpl; [done|].
  destruct (step args w c s) as [c' s']. apply IH.
Qed.


(** ** Budget, depth and visited set along a run *)

(** C1. With [max_pages > 0], [pages_crawled] never exceeds [max_pages]
    at any point of any run, and it counts the fetches that returned a
    body; once the budget is reached the [while] loop takes no further
    entry off the queue and [run] starts no further seed. *)
Theorem pages_crawled_bounded (args : Args) (w : World) (n : nat) :
  0 < max_pages args ->
  pages_crawled (run args w n).2 <= max_pages args /\
  pages_crawled (run args w n).2 = Z.of_nat (bodies w (trace (run args w n).2)) /\
  (forall s seed_url entry queue seed rest,
     max_pages args <= pages_crawled s ->
     step args w (InSeed seed_url (entry :: queue) rest) s = (AtSeeds rest, s) /\
     step args w (AtSeeds (seed :: rest)) s = (Finished, s)).
Proof.
  intros Hpos. destruct (run_inv_run args w n) as (_ & _ & _ & _ & Hp & Hmax).
  split; [by apply Hmax|]. split; [done|].
  intros s seed_url entry queue seed rest Hfull. simpl.
  unfold budget_left, budget_reached.
  assert ((max_pages args =? 0) = false) as -> by lia.
  assert ((pages_crawled s <? max_pages args) = false) as -> by lia.
  assert ((max_pages args >? 0) = true) as -> by lia.
  assert ((pages_crawled s >=? max_pages args) = true) as -> by lia.
  done.
Qed.

Lemma pages_crawled_bounded_witness :
  0 < max_pages budget_args /\
  pages_crawled (run budget_args site_world 12).2 <= 2.
Proof.
  split; [reflexivity|].
  exact (proj1 (pages_crawled_bounded budget_args site_world 12 eq_refl)).
Defined.

(** C2. An entry taken off the queue with a depth above [args.depth] is
    dropped at once: nothing but the dequeue happens, in particular no
    fetch; and at any point of any run every entry handed to [fetch_page]
    has a depth of at most [args.depth]. *)
Theorem no_fetch_beyond_depth (args : Args) (w : World) :
  (forall seed_url url d parent_url queue s,
     depth args < d ->
     crawl_seed_body args w seed_url (url, d, parent_url) queue s
     = (Ok queue, dequeued s url d parent_url)) /\
  (forall n url d,
     (url, d) ∈ fetches (trace (run args w n).2) -> d <= depth args).
Proof.
  split.
  - intros. by apply crawl_seed_body_too_deep.
  - intros n url d Hin.
    destruct (run_inv_run args w n) as (_ & _ & _ & Hd & _).
    rewrite Forall_forall in Hd. by apply (Hd (url, d)).
Qed.

Lemma no_fetch_beyond_depth_witness :
  depth site_args < 4 /\
  crawl_seed_body site_args site_world "http://h/" ("http://h/deep", 4, "http://h/")
    [] init
  = (Ok [], dequeued init "http://h/deep" 4 "http://h/").
Proof.
  split; [reflexivity|].
  exact (proj1 (no_fetch_beyond_depth site_args site_world)
           "http://h/" "http://h/deep" 4 "http://h/" [] init eq_refl).
Defined.




(** ** Expanding the links of a page *)

(** When an iteration changes the queue, it does so by running the loop
    over the links of an HTML page that is not a file, below the depth
    bound. *)
Lemma crawl_seed_body_queue (args : Args) (w : World) (seed_url url : string)
    (d : Z) (parent_url : string) (queue queue' : list Entry) (s s' : State) :
  crawl_seed_body args w seed_url (url, d, parent_url) queue s = (Ok queue', s') ->
  queue' = queue \/
  (d < depth args /\
   exists evs content status ctype len,
     fetch_page w url = (evs, (Some content, status, ctype, len)) /\
     contains "text/html" ctype = true /\ has_file_extension url = false /\
     enqueue_links w seed_url url d (visited_urls s') queue
       (set_iter w (parse_links w content url)) = Some queue').
Proof.
  unfold crawl_seed_body, add_visited, polite_delay. intros H.
  monad_cases; try (by left).
  all: right; (split; [lia|]).
  all: match goal with
       | Hor : _ || negb _ = false |- _ =>
           apply orb_false_iff in Hor as [? ?%negb_false_iff]
       end.
  all: by eauto 10.
Qed.

(** The loop over the links of a page [url] of depth [d], in whatever
    order the set is iterated: every link that is not visited and that
    [should_follow] accepts is appended to the queue with [url] as parent,
    at depth [d] when a file extension occurs in its lower-cased URL and at
    depth [d + 1] otherwise, and nothing else is appended. *)
Lemma enqueue_links_by_kind (w : World) (seed_url url : string) (d : Z)
    (visited : gset string) (queue : list Entry) (content : bytes) :
  (forall link, link ∈ set_iter w (parse_links w content url)
                <-> link ∈ parse_links w content url) ->
  (forall link, link ∈ parse_links w content url -> link ∉ visited ->
     is_Some (should_follow w link seed_url)) ->
  exists added,
    enqueue_links w seed_url url d visited queue
      (set_iter w (parse_links w content url)) = Some (queue ++ added) /\
    (forall link,
       link ∈ parse_links w content url -> link ∉ visited ->
       should_follow w link seed_url = Some true ->
       (has_file_extension link = true -> (link, d, url) ∈ added) /\
       (has_file_extension link = false -> (link, d + 1, url) ∈ added)) /\
    (forall entry, entry ∈ added ->
       exists link,
         entry = (link, if has_file_extension link then d else d + 1, url) /\
         link ∈ parse_links w content url /\ (link ∉ visited) /\
         should_follow w link seed_url = Some true).
Proof.
  intros Hiter Hdef.
  destruct (enqueue_links_defined w seed_url url d visited
              (set_iter w (parse_links w content url)) queue) as [queue' Hq].
  { intros link Hl. apply Hdef. by apply Hiter. }
  pose proof (enqueue_links_spec _ _ _ _ _ _ _ _ Hq) as ->.
  eexists. split; [exact Hq|]. split.
  - intros link Hl Hv Hs.
    assert (link_entry url d link
            ∈ List.map (link_entry url d)
                (List.filter (in_scope w seed_url visited)
                   (set_iter w (parse_links w content url)))) as Hin.
    { apply list_elem_of_In, in_map, filter_In. split.
      - apply list_elem_of_In. by apply Hiter.
      - by apply in_scope_true. }
    unfold link_entry in Hin. split; intros Hext; by rewrite Hext in Hin.
  - intros entry Hin.
    apply list_elem_of_In, in_map_iff in Hin as (link & <- & Hl).
    apply filter_In in Hl as [Hl Hs]. apply in_scope_true in Hs as [Hv Hs].
    exists link. repeat split; [|done..]. apply Hiter. by apply list_elem_of_In.
Qed.

Lemma can_fetch_parses (args : Args) (w : World) (url : string) (s s' : State)
    (b : bool) :
  can_fetch args w url s = (Ok b, s') -> is_Some (parse_url w url).
Proof.
  unfold can_fetch, get_robots_parser. destruct (parse_url w url); [eauto|].
  by unfold_monad.
Qed.

(** [save_raw] returns whenever the URL parses and the directory can be
    made. *)
Lemma save_raw_returns (w : World) (content : bytes) (url : string)
    (is_file : bool) (s : State) :
  is_Some (parse_url w url) -> mkdir_ok w url = true ->
  exists saved s', save_raw w content url is_file s = (Ok saved, s').
Proof.
  intros [parsed Hp] Hm. unfold save_raw, make_dirs, save_path. rewrite Hp.
  unfold_monad. simpl. rewrite Hm. simpl.
  destruct is_file; simpl; destruct (write_ok w url); simpl;
    try destruct (failed_write w url); simpl; eauto.
Qed.

(** [log_metadata] always returns. *)
Lemma log_metadata_returns (w : World) (url : string) (status : Z)
    (ctype saved : string) (d : Z) (parent : string) (len : Z) (s : State) :
  exists s', log_metadata w url status ctype saved d parent len s = (Ok tt, s').
Proof.
  unfold log_metadata. unfold_monad. simpl. destruct (index_ok w url); simpl; eauto.
Qed.

(** The iteration that expands a page: an HTML page that is not a file,
    below the depth bound, whose directory can be made. *)
Lemma crawl_seed_body_html (args : Args) (w : World) (seed_url url : string)
    (d : Z) (parent_url : string) (queue : list Entry) (s s1 : State)
    (evs : list Event) (content : bytes) (status : Z) (ctype : string) (len : Z) :
  url ∉ visited_urls s -> d < depth args ->
  can_fetch args w url (dequeued s url d parent_url) = (Ok true, s1) ->
  fetch_page w url = (evs, (Some content, status, ctype, len)) ->
  contains "text/html" ctype = true -> has_file_extension url = false ->
  mkdir_ok w url = true ->
  exists s',
    visited_urls s' = {[url]} ∪ visited_urls s /\
    crawl_seed_body args w seed_url (url, d, parent_url) queue s
    = (match enqueue_links w seed_url url d ({[url]} ∪ visited_urls s) queue
               (set_iter w (parse_links w content url)) with
       | Some queue' => Ok queue'
       | None => Raise ValueError
       end, s').
Proof.
  intros Hv Hd Hcan Hfetch Hhtml Hfile Hm.
  pose proof (can_fetch_parses _ _ _ _ _ _ Hcan) as Hparse.
  pose proof (can_fetch_quiet _ _ _ _ _ _ Hcan) as (_ & _ & _ & _ & Hv1 & _).
  simpl in Hv1.
  unfold crawl_seed_body, add_visited, polite_delay. unfold_monad. simpl.
  rewrite bool_decide_eq_false_2 by done.
  assert ((d >? depth args) = false) as -> by lia.
  unfold dequeued in Hcan. rewrite Hcan. simpl.
  assert ((d <? depth args) = true) as Hlt by lia.
  destruct (pages_crawled s1 >? 0); simpl; rewrite Hfetch; simpl;
    rewrite Hfile, Hhtml; simpl.
  all: match goal with
       | |- context [save_raw ?w0 ?c ?u ?f ?st] =>
           destruct (save_raw_returns w0 c u f st Hparse Hm) as (saved & s4 & Hsave);
           pose proof (save_raw_quiet _ _ _ _ _ _ _ Hsave) as (_ & _ & _ & _ & Hv4 & _);
           rewrite Hsave
       end.
  all: destruct (log_metadata_returns w url status ctype saved d parent_url len s4)
         as (s5 & Hlog);
       pose proof (log_metadata_quiet _ _ _ _ _ _ _ _ _ _ _ Hlog)
         as (_ & _ & _ & _ & Hv5 & _);
       rewrite Hlog, Hlt; simpl in Hv4.
  all: exists s5; (split; [congruence|]).
  all: assert (visited_urls s5 = {[url]} ∪ visited_urls s) as -> by congruence.
  all: by destruct (enqueue_links _ _ _ _ _ _ _).
Qed.

(** C6. One iteration of [crawl_seed] on the entry [(url, d, parent_url)].
    When the page is fetched as HTML, is not a file and lies below the
    depth bound, the iteration returns with the links of the page on the
    queue behind what was there: every link that is not visited and that
    [should_follow] accepts, with [url] as parent, at depth [d] when a
    file extension occurs in its lower-cased URL and at depth [d + 1]
    otherwise, once each time the iteration over the set yields it and in
    that order.  And whenever an
    iteration returns, whatever the page, it has appended nothing but
    such links at such depths. *)
Theorem links_enqueued_by_kind (args : Args) (w : World) (seed_url url : string)
    (d : Z) (parent_url : string) (queue : list Entry) (s : State) :
  (forall s1 evs content status ctype len,
     url ∉ visited_urls s -> d < depth args ->
     can_fetch args w url (dequeued s url d parent_url) = (Ok true, s1) ->
     fetch_page w url = (evs, (Some content, status, ctype, len)) ->
     contains "text/html" ctype = true -> has_file_extension url = false ->
     mkdir_ok w url = true ->
     (forall link, link ∈ set_iter w (parse_links w content url)
                   <-> link ∈ parse_links w content url) ->
     (forall link, link ∈ parse_links w content url ->
        link ∉ {[url]} ∪ visited_urls s ->
        is_Some (should_follow w link seed_url)) ->
     exists added s',
       crawl_seed_body args w seed_url (url, d, parent_url) queue s
       = (Ok (queue ++ added), s') /\
       visited_urls s' = {[url]} ∪ visited_urls s /\
       added = List.map (link_entry url d)
                 (List.filter (in_scope w seed_url (visited_urls s'))
                    (set_iter w (parse_links w content url))) /\
       (forall link,
          link ∈ parse_links w content url -> link ∉ visited_urls s' ->
          should_follow w link seed_url = Some true ->
          (has_file_extension link = true -> (link, d, url) ∈ added) /\
          (has_file_extension link = false -> (link, d + 1, url) ∈ added)) /\
       (forall entry, entry ∈ added ->
          exists link,
            entry = (link, if has_file_extension link then d else d + 1, url) /\
            link ∈ parse_links w content url /\ (link ∉ visited_urls s') /\
            should_follow w link seed_url = Some true)) /\
  (forall queue' s',
     crawl_seed_body args w seed_url (url, d, parent_url) queue s = (Ok queue', s') ->
     exists added,
       queue' = queue ++ added /\
       forall entry, entry ∈ added ->
         exists link evs content status ctype len,
           fetch_page w url = (evs, (Some content, status, ctype, len)) /\
           contains "text/html" ctype = true /\ has_file_extension url = false /\
           d < depth args /\
           entry = (link, if has_file_extension link then d else d + 1, url) /\
           link ∈ set_iter w (parse_links w content url) /\
           (link ∉ visited_urls s') /\
           should_follow w link seed_url = Some true).
Proof.
  split.
  - intros s1 evs content status ctype len Hv Hd Hcan Hfetch Hhtml Hfile Hm Hiter Hdef.
    destruct (crawl_seed_body_html args w seed_url url d parent_url queue s s1
                evs content status ctype len Hv Hd Hcan Hfetch Hhtml Hfile Hm)
      as (s' & Hv' & Hbody).
    destruct (enqueue_links_by_kind w seed_url url d ({[url]} ∪ visited_urls s)
                queue content Hiter Hdef) as (added & Hq & Hin & Hout).
    rewrite Hq in Hbody. exists added, s'. rewrite Hv'.
    split; [done|]. split; [done|]. split; [|done].
    apply enqueue_links_spec in Hq. by apply app_inv_head in Hq.
  - intros queue' s' Hbody.
    apply crawl_seed_body_queue in Hbody
      as [->|(Hd & evs & content & status & ctype & len & Hfetch & Hhtml & Hfile & Hq)].
    { exists []. split; [by rewrite app_nil_r|]. by intros entry ?%elem_of_nil. }
    apply enqueue_links_spec in Hq as ->. eexists. split; [done|].
    intros entry Hin.
    apply list_elem_of_In, in_map_iff in Hin as (link & <- & Hl).
    apply filter_In in Hl as [Hl Hs]. apply in_scope_true in Hs as [Hv Hs].
    exists link, evs, content, status, ctype, len.
    repeat split; [done..| by apply list_elem_of_In | done | done].
Qed.

Lemma links_enqueued_by_kind_witness :
  exists added s',
    crawl_seed_body site_args library_world "http://h/" ("http://h/", 0, EmptyString)
      [] init
    = (Ok ([] ++ added), s') /\
    ("http://h/paper.PDF", 0, "http://h/") ∈ added /\
    ("http://h/next", 1, "http://h/") ∈ added.
Proof.
  assert (parse_links library_world (body_of "http://h/") "http://h/"
          = {[ "http://h/paper.PDF"; "http://h/next" ]}) as Hlinks.
  { unfold parse_links, library_world, example_world, body_of.
    cbn [soup_hrefs]. 
    change (string_of_list_byte (list_byte_of_string "http://h/")) with "http://h/".
    change (String.eqb "http://h/" "http://h/") with true. cbv iota.
    unfold collect_links, join_url. cbn [check_bracketed_netloc checknetloc_nfkc].
    vm_compute urljoin. cbv iota beta.
    change (split_head "#" "http://h/paper.PDF") with "http://h/paper.PDF".
    change (split_head "#" "http://h/next") with "http://h/next".
    cbn [is_empty negb]. set_solver. }
  destruct (proj1 (links_enqueued_by_kind site_args library_world "http://h/"
                     "http://h/" 0 EmptyString [] init)
              (can_fetch site_args library_world "http://h/"
                 (dequeued init "http://h/" 0 EmptyString)).2
              (fetch_page library_world "http://h/").1
              (body_of "http://h/") 200 "text/html; charset=utf-8" 9)
    as (added & s' & Hbody & Hv' & _ & Hin & _).
  - simpl. apply not_elem_of_empty.
  - vm_compute. reflexivity.
  - vm_compute. reflexivity.
  - vm_compute. reflexivity.
  - vm_compute. reflexivity.
  - vm_compute. reflexivity.
  - reflexivity.
  - intros link. apply elem_of_elements.
  - intros link Hl _. rewrite Hlinks in Hl.
    apply elem_of_union in Hl as [Hl|Hl]; apply elem_of_singleton in Hl as ->;
      vm_compute; eauto.
  - exists added, s'. split; [exact Hbody|]. split.
    + apply (Hin "http://h/paper.PDF").
      * rewrite Hlinks. set_solver.
      * rewrite Hv'. simpl. intros Heq. apply elem_of_union in Heq as [Heq|Heq];
          [apply elem_of_singleton in Heq; discriminate Heq
          | by apply elem_of_empty in Heq].
      * vm_compute. reflexivity.
      * vm_compute. reflexivity.
    + apply (Hin "http://h/next").
      * rewrite Hlinks. set_solver.
      * rewrite Hv'. simpl. intros Heq. apply elem_of_union in Heq as [Heq|Heq];
          [apply elem_of_singleton in Heq; discriminate Heq
          | by apply elem_of_empty in Heq].
      * vm_compute. reflexivity.
      * vm_compute. reflexivity.
Defined.

(** ** Politeness delay *)

(** What [crawl_seed] does before a fetch: it sleeps exactly when some
    earlier fetch of the run has returned a body. *)
Lemma polite_delay_spec (args : Args) (w : World) (url : string) (s : State) :
  (0 < pages_crawled s ->
   polite_delay args w url s
   = (Ok tt, mkState (visited_urls s) (robots_cache s) (pages_crawled s)
               (files s) (index_jsonl s)
               (trace s ++ [Delay (random_uniform w url (delay_min args)
                                     (delay_max args))]))) /\
  (pages_crawled s <= 0 -> polite_delay args w url s = (Ok tt, s)).
Proof.
  unfold polite_delay. unfold_monad. split; intros H.
  - by assert ((pages_crawled s >? 0) = true) as -> by lia.
  - by assert ((pages_crawled s >? 0) = false) as -> by lia.
Qed.

(** C8 fails on the code. Two seeds, the first host refusing every
    connection: the fetch of the second seed is the second fetch of the
    run, and no delay precedes it, because no page has been counted yet. *)
Theorem no_delay_after_failed_fetch :
  run site_args down_up_world 7
  = (Finished, (run site_args down_up_world 7).2) /\
  trace (run site_args down_up_world 7).2
  = [Dequeue "http://down/" 0 EmptyString; RobotsRead "http://down/robots.txt";
     MarkVisited "http://down/"; Fetch "http://down/" 0;
     Get "http://down/" 0; Backoff 1; Get "http://down/" 1; Backoff 2;
     Get "http://down/" 2;
     Dequeue "http://up/" 0 EmptyString; RobotsRead "http://up/robots.txt";
     MarkVisited "http://up/"; Fetch "http://up/" 0; Get "http://up/" 0;
     Mkdir "http://up/" true;
     WriteFile "data/raw/20240101/up_http://up/.html" true;
     AppendIndex "http://up/" true].
Proof. split; vm_compute; reflexivity. Qed.

(** ** Persistence *)

Lemma steps_aborted (args : Args) (w : World) (n : nat) (e : Exn) (s : State) :
  steps args w n (Aborted e) s = (Aborted e, s).
Proof. induction n as [|n IH]; simpl; done. Qed.

(** A failure of [open] or [write] is caught: [save_raw] returns the empty
    string.  Nothing is stored when [open] failed; when the write failed
    the file holds what was left of it. *)
Lemma save_raw_write_failure (w : World) (content : bytes) (url : string)
    (is_file : bool) (filepath : string) (s : State) :
  save_path w url is_file = Some filepath ->
  mkdir_ok w url = true -> write_ok w url = false ->
  exists s', save_raw w content url is_file s = (Ok EmptyString, s') /\
             files s' = match failed_write w url with
                        | Some left_behind => <[filepath := left_behind]> (files s)
                        | None => files s
                        end /\
             index_jsonl s' = index_jsonl s.
Proof.
  intros Hp Hm Hw. unfold save_raw, make_dirs.
  destruct is_file; rewrite Hp; unfold_monad; simpl; rewrite Hm; simpl;
    rewrite Hw; simpl; destruct (failed_write w url); simpl; eauto.
Qed.

(** A failure of [mkdir] is not: it happens before the [try] block. *)
Lemma save_raw_mkdir_failure (w : World) (content : bytes) (url : string)
    (is_file : bool) (filepath : string) (s : State) :
  save_path w url is_file = Some filepath ->
  mkdir_ok w url = false ->
  exists s', save_raw w content url is_file s = (Raise OSError, s') /\
             files s' = files s /\ index_jsonl s' = index_jsonl s.
Proof.
  intros Hp Hm. unfold save_raw, make_dirs.
  destruct is_file; rewrite ?Hp; unfold_monad; simpl; rewrite Hm; simpl; eauto.
Qed.

(** [log_metadata] never raises, and records nothing when it fails. *)
Lemma log_metadata_recovers (w : World) (url : string) (status : Z)
    (ctype saved : string) (d : Z) (parent : string) (len : Z) (s : State) :
  exists s', log_metadata w url status ctype saved d parent len s = (Ok tt, s') /\
             files s' = files s /\
             (index_ok w url = false -> index_jsonl s' = index_jsonl s).
Proof.
  unfold log_metadata. unfold_monad. simpl.
  destruct (index_ok w url); simpl; eexists; (split; [reflexivity|]); done.
Qed.

(** Once an exception has left [run], nothing more happens. *)
Lemma run_aborted_stays (args : Args) (w : World) (k n : nat) (e : Exn) :
  (run args w k).1 = Aborted e -> run args w (k + n) = run args w k.
Proof.
  unfold run. intros H. rewrite steps_add.
  destruct (steps args w k (AtSeeds (read_seeds w)) init) as [c s].
  simpl in *. subst c. apply steps_aborted.
Qed.

(** C9 fails on the code. Two seeds; creating the directory for the first
    page fails.  The [OSError] leaves [save_raw], [crawl_seed] and [run]:
    the run is over after the first page, however long it is followed,
    and the second seed is never taken off a queue. *)
Theorem mkdir_failure_aborts_run (n : nat) :
  (run site_args no_mkdir_world (2 + n)).1 = Aborted OSError /\
  trace (run site_args no_mkdir_world (2 + n)).2
  = [Dequeue "http://h/a" 0 EmptyString; RobotsRead "http://h/robots.txt";
     MarkVisited "http://h/a"; Fetch "http://h/a" 0; Get "http://h/a" 0;
     Mkdir "http://h/a" false] /\
  index_jsonl (run site_args no_mkdir_world (2 + n)).2 = [].
Proof.
  assert ((run site_args no_mkdir_world 2).1 = Aborted OSError) as H.
  { vm_compute. reflexivity. }
  rewrite (run_aborted_stays _ _ 2 n OSError H).
  split; [exact H|]. split; vm_compute; reflexivity.
Qed.

(** With the same seeds, a failure of the write itself is recovered: the
    run goes on to the second seed, nothing is stored for the first page,
    and its index line carries an empty path. *)
Lemma write_failure_recovered :
  (run site_args no_write_world 7).1 = Finished /\
  fetches (trace (run site_args no_write_world 7).2)
  = [("http://h/a", 0); ("http://h/b", 0)] /\
  (md_saved_path <$> index_jsonl (run site_args no_write_world 7).2)
  = [EmptyString; "data/raw/20240101/h_http://h/b.html"] /\
  files (run site_args no_write_world 7).2 !! "data/raw/20240101/h_http://h/a.html"
  = None.
Proof. repeat split; vm_compute; reflexivity. Qed.

(** ** Every run over a finite web ends *)

(** An iteration that changes the queue has marked the URL visited. *)
Lemma crawl_seed_body_expands (args : Args) (w : World) (seed_url url : string)
    (d : Z) (parent_url : string) (queue queue' : list Entry) (s s' : State) :
  crawl_seed_body args w seed_url (url, d, parent_url) queue s = (Ok queue', s') ->
  queue' = queue \/
  ((url ∉ visited_urls s) /\ visited_urls s' = {[url]} ∪ visited_urls s /\
   exists evs content status ctype len,
     fetch_page w url = (evs, (Some content, status, ctype, len)) /\
     enqueue_links w seed_url url d (visited_urls s') queue
       (set_iter w (parse_links w content url)) = Some queue').
Proof.
  unfold crawl_seed_body, add_visited, polite_delay. intros H.
  monad_cases; try (by left).
  all: right;
    match goal with
    | Hf : fetch_page _ _ = _ |- _ => pose proof Hf as Hfetch
    end;
    use_quiet; unfold quiet in *; simpl in *; destruct_and?.
  all: match goal with
       | Hb : bool_decide _ = false |- _ => apply bool_decide_eq_false in Hb
       end.
  all: split; [done|]; split; [congruence|]; by eauto 10.
Qed.

Lemma size_difference_insert (web visited : gset string) (url : string) :
  url ∈ web -> url ∉ visited ->
  (size (web ∖ ({[url]} ∪ visited)) < size (web ∖ visited))%nat.
Proof. intros Hw Hv. apply subset_size. set_solver. Qed.

Lemma size_difference_mono (web visited visited' : gset string) :
  visited ⊆ visited' -> (size (web ∖ visited') <= size (web ∖ visited))%nat.
Proof. intros H. apply subseteq_size. set_solver. Qed.

(** A list without repetition drawn from [web] is no longer than [web]. *)
Lemma length_within (web : gset string) (l : list string) :
  NoDup l -> (forall x, x ∈ l -> x ∈ web) -> (length l <= size web)%nat.
Proof.
  intros Hnd Hin. rewrite <- (size_list_to_set (C := gset string) l Hnd).
  apply subseteq_size. intros x Hx. apply Hin. by apply elem_of_list_to_set in Hx.
Qed.

Lemma length_filter_le {A} (f : A -> bool) (l : list A) :
  (length (List.filter f l) <= length l)%nat.
Proof. induction l as [|a l IH]; simpl; [done|]. destruct (f a); simpl; lia. Qed.

Section FiniteWeb.

Variable args : Args.
Variable w : World.
Variable web : gset string.

Hypothesis links_in_web :
  forall url evs content status ctype len,
    fetch_page w url = (evs, (Some content, status, ctype, len)) ->
    parse_links w content url ⊆ web.
Hypothesis set_iter_once :
  forall links, NoDup (set_iter w links) /\
                forall x, x ∈ set_iter w links -> x ∈ links.

Lemma step_decreases (c : Control) (s : State) :
  within web c -> ~ final c ->
  within web (step args w c s).1 /\
  (work_left web (step args w c s).1 (step args w c s).2 < work_left web c s)%nat.
Proof.
  intros Hin Hnf. unfold work_left.
  destruct c as [[|seed rest]|seed_url [|[[url d] parent_url] queue] rest| |e];
    simpl in *.
  - split; [done | lia].
  - destruct (budget_reached args s); simpl; (split; [|lia]); [done|].
    split; [|set_solver]. intros entry ->%list_elem_of_singleton. set_solver.
  - split; [by destruct Hin | lia].
  - destruct Hin as [Hq Hrest].
    assert (url ∈ web) as Hurl by (apply (Hq (url, d, parent_url)); set_solver).
    destruct (budget_left args s); simpl; [|split; [done | lia]].
    destruct (crawl_seed_body args w seed_url (url, d, parent_url) queue s)
      as [r s'] eqn:Hbody.
    pose proof (crawl_seed_body_spec _ _ _ _ _ _ _ _ _ _ Hbody) as [_ Hspec].
    assert (size (web ∖ visited_urls s') <= size (web ∖ visited_urls s))%nat as Hle.
    { apply size_difference_mono.
      destruct Hspec as [(_ & _ & _ & -> & _)|(_ & _ & _ & _ & -> & _)]; set_solver. }
    pose proof (Nat.mul_le_mono_l _ _ (size web + 1) Hle) as Hmul.
    destruct r as [queue'|e]; simpl; [|split; [done | lia]].
    apply crawl_seed_body_expands in Hbody
      as [->|(Hnew & Hv & evs & content & status & ctype & len & Hfetch & Henq)].
    2: pose proof (links_in_web _ _ _ _ _ _ Hfetch) as Hweb.
    { split; [split; [|done] | lia]. intros entry He. apply Hq. set_solver. }
    apply enqueue_links_spec in Henq as ->.
    destruct (set_iter_once (parse_links w content url)) as [Hnd Hsub].
    split; [split; [|done]|].
    + intros entry [He|He]%elem_of_app; [apply Hq; set_solver|].
      apply list_elem_of_In, in_map_iff in He as (link & <- & Hl).
      apply filter_In in Hl as [Hl _]. simpl.
      apply Hweb, Hsub. by apply list_elem_of_In.
    + rewrite length_app, length_map.
      pose proof (length_filter_le (in_scope w seed_url (visited_urls s'))
                    (set_iter w (parse_links w content url))) as Hf.
      pose proof (length_within web (set_iter w (parse_links w content url)) Hnd)
        as Hlen.
      assert (length (set_iter w (parse_links w content url)) <= size web)%nat
        as Hlen' by (apply Hlen; intros x Hx; by apply Hweb, Hsub).
      pose proof (size_difference_insert web (visited_urls s) url Hurl Hnew) as Hlt.
      rewrite Hv in *. apply Nat.le_succ_l in Hlt.
      apply (Nat.mul_le_mono_l _ _ (size web + 1)) in Hlt.
      rewrite Nat.mul_succ_r in Hlt. lia.
  - exfalso. apply Hnf. by left.
  - exfalso. apply Hnf. right. by exists e.
Qed.

Lemma final_dec (c : Control) : final c \/ ~ final c.
Proof.
  destruct c; [right|right|left|left]; unfold final;
    try (intros [?|[? ?]]; discriminate); eauto.
Qed.

Lemma steps_final (n : nat) (c : Control) (s : State) :
  final c -> steps args w n c s = (c, s).
Proof.
  intros Hf. induction n as [|n IH]; simpl; [done|].
  by destruct Hf as [->|[e ->]].
Qed.

Lemma steps_reach_final (n : nat) (c : Control) (s : State) :
  within web c -> (work_left web c s <= n)%nat ->
  final (steps args w n c s).1.
Proof.
  revert c s. induction n as [|n IH]; intros c s Hin Hwork.
  - destruct (final_dec c) as [Hf|Hnf]; [done|].
    destruct (step_decreases c s Hin Hnf) as [_ Hlt]. lia.
  - destruct (final_dec c) as [Hf|Hnf]; [by rewrite steps_final|].
    destruct (step_decreases c s Hin Hnf) as [Hin' Hlt].
    simpl. destruct (step args w c s) as [c' s']. apply IH; [done|]. simpl in *. lia.
Qed.

(** X19. When the seeds and the links of every page served lie in a finite
    set of URLs and the iteration over a set of links yields each link at
    most once, [run] returns or is left by an exception after a bounded
    number of steps. *)
Theorem run_terminates :
  (forall seed, seed ∈ read_seeds w -> seed ∈ web) ->
  final (run args w (work_left web (AtSeeds (read_seeds w)) init)).1.
Proof. intros Hseeds. by apply steps_reach_final. Qed.

End FiniteWeb.

Lemma site_work_left :
  work_left {[ "http://h/"; "http://h/b"; "http://h/c" ]}
    (AtSeeds (read_seeds site_world)) init = 16%nat.
Proof. (vm_compute; reflexivity). Qed.

Lemma run_terminates_site :
  final (run site_args site_world 16).1.
Proof.
  rewrite <- site_work_left.
  apply (run_terminates site_args site_world
           {[ "http://h/"; "http://h/b"; "http://h/c" ]}).
  - intros url evs content status ctype len Hfetch.
    assert (content = body_of url) as ->.
    { unfold fetch_page in Hfetch. simpl in Hfetch. congruence. }
    unfold parse_links, site_world, example_world, body_of. cbn [soup_hrefs].
    rewrite string_of_list_byte_of_string. unfold site_links.
    destruct (String.eqb_spec url "http://h/") as [->|_].
    { unfold collect_links, join_url. cbn [check_bracketed_netloc checknetloc_nfkc].
      vm_compute urljoin. cbv iota beta.
      vm_compute split_head.  cbn [is_empty negb]. set_solver. }
    destruct (String.eqb_spec url "http://h/b") as [->|_].
    { unfold collect_links, join_url. cbn [check_bracketed_netloc checknetloc_nfkc].
      vm_compute urljoin. cbv iota beta. vm_compute split_head.
      cbn [is_empty negb]. set_solver. }
    destruct (String.eqb_spec url "http://h/c") as [->|_].
    { unfold collect_links, join_url. cbn [check_bracketed_netloc checknetloc_nfkc].
      vm_compute urljoin. cbv iota beta. vm_compute split_head.
      cbn [is_empty negb]. set_solver. }
    cbn [collect_links]. set_solver.
  - intros links. change (set_iter site_world links) with (reverse (elements links)). split.
    + rewrite reverse_Permutation. apply NoDup_elements.
    + intros x Hx. rewrite elem_of_reverse, elem_of_elements in Hx. exact Hx.
  - intros seed Hs. vm_compute in Hs.
    apply list_elem_of_singleton in Hs as ->. set_solver.
Defined.

(** * Further properties of the code *)

(** ** Seeds file: [read_seeds] *)














Lemma rstrip_idem (p : ascii -> bool) (s : string) :
  rstrip p (rstrip p s) = rstrip p s.
Proof.
  induction s as [|a s IH]; simpl; [done|].
  destruct (is_empty (rstrip p s) && p a) eqn:E; simpl; [done|].
  by rewrite IH, E.
Qed.




(** X2. Without seeds (no file, or only blank lines and comments) [run]
    returns at once: nothing is fetched, slept or written. *)
Theorem run_without_seeds (args : Args) (w : World) (n : nat) :
  read_seeds w = [] -> run args w (S n) = (Finished, init).
Proof.
  intros H. unfold run. rewrite H. simpl. induction n as [|n IH]; simpl; done.
Qed.

Lemma run_without_seeds_witness :
  read_seeds comments_world = [] /\
  run site_args comments_world 5 = (Finished, init).
Proof.
  split; [reflexivity|].
  exact (run_without_seeds site_args comments_world 4 eq_refl).
Defined.

(** ** Scope policy, again *)

Lemma startswith_rstrip (p : ascii -> bool) (s : string) :
  startswith s (rstrip p s) = true.
Proof.
  induction s as [|a s IH]; simpl; [done|].
  destruct (is_empty (rstrip p s) && p a); simpl; [done|].
  by rewrite Ascii.eqb_refl, IH.
Qed.

Lemma string_app_assoc (s t u : string) : (s +:+ t) +:+ u = s +:+ t +:+ u.
Proof.
  induction s as [|a s IH]; [reflexivity|].
  change (String a ((s +:+ t) +:+ u) = String a (s +:+ t +:+ u)). by rewrite IH.
Qed.

Lemma startswith_trans (s t u : string) :
  startswith s t = true -> startswith t u = true -> startswith s u = true.
Proof.
  rewrite !startswith_spec. intros [x ->] [y ->]. exists (y +:+ x).
  apply string_app_assoc.
Qed.

(** X3. A URL that parses is in its own scope when used as seed, and the
    scope of a seed is closed under extending the path on the same
    netloc: whatever lies below a followed URL is followed too. *)
Theorem should_follow_scope (w : World) :
  (forall seed_url, is_Some (parse_url w seed_url) ->
     should_follow w seed_url seed_url = Some true) /\
  (forall url url' seed_url url_parsed url_parsed',
     should_follow w url seed_url = Some true ->
     parse_url w url = Some url_parsed ->
     parse_url w url' = Some url_parsed' ->
     netloc url_parsed' = netloc url_parsed ->
     startswith (path url_parsed') (path url_parsed) = true ->
     should_follow w url' seed_url = Some true).
Proof.
  split.
  - intros seed_url [p Hp]. apply should_follow_true_spec. exists p, p.
    repeat split; [done..|]. right; right. apply startswith_spec, startswith_rstrip.
  - intros url url' seed_url pu pu' Hf Hu Hu' Hnl Hpre.
    apply should_follow_true_spec in Hf as (pu0 & ps & Hu0 & Hs & Hnl0 & Hpath).
    rewrite Hu in Hu0. injection Hu0 as <-.
    apply should_follow_true_spec. exists pu', ps.
    repeat split; [done | done | congruence |].
    destruct Hpath as [Hpath|[Hpath|Hpath]]; [by left | by right; left |].
    right; right. apply startswith_spec.
    eapply startswith_trans; [exact Hpre | by apply startswith_spec].
Qed.

Lemma should_follow_scope_witness :
  should_follow offline_world "https://h/docs/a" "https://h/docs/" = Some true /\
  startswith "/docs/a/b" "/docs/a" = true /\
  should_follow offline_world "https://h/docs/a/b?x=1" "https://h/docs/" = Some true.
Proof.
  assert (should_follow offline_world "https://h/docs/a" "https://h/docs/" = Some true)
    as H by (vm_compute; reflexivity).
  split; [exact H|]. split; [reflexivity|].
  exact (proj2 (should_follow_scope offline_world)
           "https://h/docs/a" "https://h/docs/a/b?x=1" "https://h/docs/"
           (mkParseResult "https" "h" "/docs/a" EmptyString EmptyString EmptyString)
           (mkParseResult "https" "h" "/docs/a/b" EmptyString "x=1" EmptyString)
           H eq_refl eq_refl eq_refl eq_refl).
Defined.

(** ** File extensions *)

Lemma lower_char_idem (c : ascii) : lower_char (lower_char c) = lower_char c.
Proof. destruct c as [[] [] [] [] [] [] [] []]; vm_compute; reflexivity. Qed.

Lemma lower_idem (s : string) : lower (lower s) = lower s.
Proof. induction s as [|a s IH]; simpl; [done|]. by rewrite lower_char_idem, IH. Qed.

Lemma lower_app (s t : string) : lower (s +:+ t) = lower s +:+ lower t.
Proof. induction s as [|a s IH]; simpl; [done|]. by rewrite IH. Qed.

Lemma startswith_app (s t : string) : startswith (s +:+ t) s = true.
Proof. apply startswith_spec. by exists t. Qed.

Lemma contains_app (sub a b : string) : contains sub (a +:+ sub +:+ b) = true.
Proof.
  induction a as [|c a IH].
  - change (EmptyString +:+ sub +:+ b) with (sub +:+ b).
    destruct (sub +:+ b) eqn:E; simpl; rewrite <- ?E, startswith_app; done.
  - change (String c a +:+ sub +:+ b) with (String c (a +:+ sub +:+ b)).
    simpl. rewrite IH. apply orb_true_r.
Qed.

(** X4. The file test looks for the extension anywhere in the URL and in
    any letter case: a URL holding [.pdf], [.doc] or [.docx] in some mix of
    upper and lower case, wherever it stands, counts as a file, and
    changing the case of a URL does not change the answer. *)
Theorem has_file_extension_anywhere :
  (forall a e b, lower e ∈ file_extensions ->
     has_file_extension (a +:+ e +:+ b) = true) /\
  (forall url, has_file_extension (lower url) = has_file_extension url).
Proof.
  split.
  - intros a e b He. unfold has_file_extension. apply existsb_exists.
    exists (lower e). split; [by apply list_elem_of_In|].
    rewrite !lower_app. apply contains_app.
  - intros url. unfold has_file_extension. by rewrite lower_idem.
Qed.

Lemma has_file_extension_anywhere_witness :
  lower ".PdF" ∈ file_extensions /\
  has_file_extension "http://h/view?file=a.PdF&page=2" = true.
Proof.
  split; [by vm_compute; left|].
  exact (proj1 has_file_extension_anywhere "http://h/view?file=a" ".PdF" "&page=2"
           (list_elem_of_here _ _)).
Defined.

(** ** Fetcher, again *)

(** X5. [fetch_page] sends between one and three requests, numbered from
    0, sleeps 1 s and then 2 s between them and never more than 3 s in
    all; a result with a body carries the length of that body, a
    lower-case content type and the status of the answered request, and a
    result without body is [(None, 0, '', 0)]. *)
Theorem fetch_page_bounds (w : World) (url : string) :
  let evs := (fetch_page w url).1 in
  let res := (fetch_page w url).2 in
  (1 <= length (gets evs) <= 3)%nat /\
  gets evs = seq 0 (length (gets evs)) /\
  backoffs evs = (fun k => 2 ^ Z.of_nat k) <$> seq 0 (length (gets evs) - 1) /\
  foldr Z.add 0 (backoffs evs) <= 3 /\
  match res with
  | (None, status, ctype, len) => status = 0 /\ ctype = EmptyString /\ len = 0
  | (Some body, status, ctype, len) =>
      len = Z.of_nat (length body) /\ lower ctype = ctype /\
      exists r, session_get w url (length (gets evs) - 1) = Responded r /\
                body = content r /\ status = status_code r
  end.
Proof.
  unfold fetch_page. simpl.
  destruct (session_get w url 0) as [r0| | |] eqn:H0;
    [| destruct (session_get w url 1) as [r1| | |] eqn:H1;
       [| destruct (session_get w url 2) as [r2| | |] eqn:H2 ..| ]
     | destruct (session_get w url 1) as [r1| | |] eqn:H1;
       [| destruct (session_get w url 2) as [r2| | |] eqn:H2 ..| ]
     | ]; simpl.
  all: repeat split; try lia; try done; try apply lower_idem; eauto.
Qed.

(** ** Robots cache: [get_robots_parser] and [can_fetch] *)

Lemma robots_reads_app (l k : list Event) :
  robots_reads (l ++ k) = robots_reads l ++ robots_reads k.
Proof. apply omap_app. Qed.

Lemma same_robots_inv (w : World) (s s' : State) :
  same_robots s s' -> robots_inv w s -> robots_inv w s'.
Proof.
  unfold same_robots, robots_inv, cache_ok. intros [Hc Hr] [Hok Hn].
  rewrite Hc, Hr. done.
Qed.

Lemma same_robots_trans (s1 s2 s3 : State) :
  same_robots s1 s2 -> same_robots s2 s3 -> same_robots s1 s3.
Proof. unfold same_robots. intros [? ?] [? ?]. split; congruence. Qed.

Ltac robots_step :=
  unfold same_robots; simpl;
  rewrite ?robots_reads_app; simpl; rewrite ?app_nil_r; done.

Lemma save_raw_same_robots (w : World) (content : bytes) (url : string)
    (is_file : bool) (s s' : State) (r : Result string) :
  save_raw w content url is_file s = (r, s') -> same_robots s s'.
Proof. unfold save_raw, make_dirs. intros H. monad_cases; robots_step. Qed.

Lemma log_metadata_same_robots (w : World) (url : string) (status : Z)
    (ctype path : string) (d : Z) (parent : string) (len : Z) (s s' : State)
    (r : Result unit) :
  log_metadata w url status ctype path d parent len s = (r, s') -> same_robots s s'.
Proof. unfold log_metadata. intros H. monad_cases; robots_step. Qed.

Lemma fetch_page_no_robots (w : World) (url : string) :
  robots_reads (fetch_page w url).1 = [].
Proof.
  unfold fetch_page. generalize (seq 0 3). intros attempts.
  induction attempts as [|k rest IH]; simpl; [done|].
  destruct (session_get w url k); simpl; try done;
    destruct (fetch_attempts w url rest) as [evs res]; simpl in *;
    destruct (k <? 2)%nat; simpl; done.
Qed.

(** What a call of [can_fetch] does to the cache and what its answer
    means. *)
Lemma can_fetch_robots (args : Args) (w : World) (url : string) (s s' : State)
    (r : Result bool) :
  robots_inv w s -> can_fetch args w url s = (r, s') ->
  robots_inv w s' /\
  robots_cache s ⊆ robots_cache s' /\
  (r = Ok true -> allowed args w url) /\
  (forall b base, r = Ok b -> site_of w url = Some base ->
     is_Some (robots_cache s' !! base)).
Proof.
  unfold can_fetch, get_robots_parser, robots_inv, cache_ok, allowed, site_of.
  intros [Hok Hn] H. monad_cases.
  all: try match goal with
         | Hm : robots_cache _ !! _ = None |- _ => pose proof Hm as Hmiss
         end.
  all: repeat split; simpl; try done.
  all: try (rewrite robots_reads_app, length_app; simpl;
            rewrite map_size_insert_None by done; lia).
  all: try (by apply insert_subseteq).
  all: try (intros base v; rewrite lookup_insert; case_decide; simplify_eq;
            [intros [= <-]; eauto | apply Hok]).
  all: try (intros b base ? ?; simplify_eq; rewrite ?lookup_insert_eq; by eauto).
  all: intros Hres base ru rp' Hsite Hj Hread; simplify_eq.
  all: try match goal with
         | Hhit : robots_cache _ !! _ = Some _ |- _ =>
             destruct (Hok _ _ Hhit) as (ru0 & Hj0 & Hv); simplify_eq
         end.
  all: congruence.
Qed.

Lemma can_fetch_hit (args : Args) (w : World) (url base : string)
    (v : option RobotFileParser) (s : State) :
  site_of w url = Some base -> robots_cache s !! base = Some v ->
  can_fetch args w url s
  = (Ok (match v with Some rp => rp (user_agent args) url | None => true end), s).
Proof.
  unfold site_of, can_fetch, get_robots_parser. intros Hs Hc.
  destruct (parse_url w url) as [p|]; [|done]. injection Hs as <-.
  unfold_monad. simpl. rewrite Hc. by destruct v.
Qed.

Lemma can_fetch_result (args : Args) (w : World) (url : string) (s s' : State)
    (b : bool) :
  can_fetch args w url s = (Ok b, s') ->
  exists base v,
    site_of w url = Some base /\ robots_cache s' !! base = Some v /\
    b = match v with Some rp => rp (user_agent args) url | None => true end.
Proof.
  unfold can_fetch, get_robots_parser, site_of. intros H. monad_cases.
  all: eexists _, _; (split; [reflexivity|]); simpl;
    rewrite ?lookup_insert_eq; eauto.
Qed.

(** X6. The answer for a site is memoized, also when its robots.txt could
    not be read: after a call of [can_fetch] that returned, a further call
    for any URL of the same site returns without reading anything and
    without changing the crawler, and for the same URL it gives the same
    answer. *)
Theorem can_fetch_cached (args : Args) (w : World) (url url2 : string)
    (s s' : State) (b : bool) :
  can_fetch args w url s = (Ok b, s') ->
  site_of w url2 = site_of w url ->
  can_fetch args w url s' = (Ok b, s') /\
  exists b2, can_fetch args w url2 s' = (Ok b2, s').
Proof.
  intros H Hsite. apply can_fetch_result in H as (base & v & Hs & Hc & ->).
  split; [by apply (can_fetch_hit args w url base)|].
  rewrite <- Hsite in Hs. eexists. by apply (can_fetch_hit args w url2 base).
Qed.

Lemma can_fetch_cached_witness :
  can_fetch site_args site_world "http://h/b" init
  = (Ok true, (can_fetch site_args site_world "http://h/b" init).2) /\
  site_of site_world "http://h/c" = site_of site_world "http://h/b" /\
  exists b2,
    can_fetch site_args site_world "http://h/c"
      (can_fetch site_args site_world "http://h/b" init).2
    = (Ok b2, (can_fetch site_args site_world "http://h/b" init).2).
Proof.
  assert (can_fetch site_args site_world "http://h/b" init
          = (Ok true, (can_fetch site_args site_world "http://h/b" init).2)) as H.
  { vm_compute. reflexivity. }
  split; [exact H|]. split; [vm_compute; reflexivity|].
  exact (proj2 (can_fetch_cached site_args site_world "http://h/b" "http://h/c"
                  init _ true H ltac:(vm_compute; reflexivity))).
Defined.

(** One iteration of [crawl_seed] keeps the robots cache sound and only
    fetches what robots.txt allows. *)
Lemma crawl_seed_body_robots (args : Args) (w : World) (seed_url url : string)
    (d : Z) (parent_url : string) (queue : list Entry) (s s' : State)
    (r : Result (list Entry)) :
  crawl_seed_body args w seed_url (url, d, parent_url) queue s = (r, s') ->
  robots_inv w s ->
  robots_inv w s' /\ robots_cache s ⊆ robots_cache s' /\
  (fetches (trace s') = fetches (trace s) \/ allowed args w url).
Proof.
  unfold crawl_seed_body, add_visited, polite_delay. intros H Hinv.
  assert (robots_inv w (dequeued s url d parent_url)) as Hinv0.
  { revert Hinv. apply same_robots_inv. robots_step. }
  unfold dequeued in Hinv0.
  monad_cases.
  all: try match goal with
         | Hcf : can_fetch _ _ _ _ = _ |- _ =>
             pose proof (can_fetch_quiet _ _ _ _ _ _ Hcf) as (_ & Hq & _);
             apply (can_fetch_robots _ _ _ _ _ _ Hinv0) in Hcf
               as (Hinv1 & Hsub & Hall & _); simpl in Hsub, Hq
         end.
  all: repeat match goal with
         | Hs : save_raw _ _ _ _ _ = _ |- _ => apply save_raw_same_robots in Hs
         | Hl : log_metadata _ _ _ _ _ _ _ _ _ = _ |- _ =>
             apply log_metadata_same_robots in Hl
         | Hf : fetch_page ?w ?u = (?l, _) |- _ =>
             let Hn := fresh "Hn" in
             pose proof (fetch_page_no_robots w u) as Hn; rewrite Hf in Hn;
             simpl in Hn; clear Hf
         end.
  all: unfold same_robots in *; simpl in *; destruct_and?.
  all: rewrite ?robots_reads_app in *; simpl in *;
    rewrite ?Hn in *; rewrite ?app_nil_r in *.
  all: split; [|split].
  all: try (by left; rewrite ?Hq, ?fetches_app; simpl; rewrite ?app_nil_r).
  all: try (right; apply Hall; f_equal;
            match goal with Hb : negb ?a = false |- _ => by destruct a end).
  all: try (first [exact Hinv0 | exact Hinv1 | done]).
  all: try (eapply (same_robots_inv w); [|exact Hinv1]; unfold same_robots; simpl;
            rewrite ?robots_reads_app; simpl; rewrite ?Hn, ?app_nil_r;
            split; congruence).
  all: try (repeat match goal with
                   | Hc : robots_cache _ = robots_cache _ |- _ => rewrite Hc
                   end; done).
Qed.

(** A property of the crawler that every iteration of [crawl_seed] keeps
    holds at every point of every run. *)
Lemma steps_preserve (args : Args) (w : World) (P : State -> Prop) :
  (forall seed_url url d parent_url queue s r s',
     P s ->
     crawl_seed_body args w seed_url (url, d, parent_url) queue s = (r, s') ->
     P s') ->
  forall n c s, P s -> P (steps args w n c s).2.
Proof.
  intros Hbody n. induction n as [|n IH]; intros c s HP; simpl; [done|].
  destruct (step args w c s) as [c' s'] eqn:Hstep. apply IH.
  destruct c as [[|seed rest]|seed_url [|[[url d] parent_url] queue] rest| |e];
    simpl in Hstep; try (by simplify_eq).
  - by destruct (budget_reached args s); simplify_eq.
  - destruct (budget_left args s); [|by simplify_eq].
    destruct (crawl_seed_body args w seed_url (url, d, parent_url) queue s)
      as [r s1] eqn:Hb.
    assert (s1 = s') as <- by (destruct r; by simplify_eq).
    by eapply Hbody.
Qed.

Lemma robots_inv_init (w : World) : robots_inv w init.
Proof. split; [intros base v H; simpl in H; by rewrite lookup_empty in H | done]. Qed.

Lemma run_robots (args : Args) (w : World) (n : nat) :
  robots_inv w (run args w n).2 /\
  Forall (allowed args w) (fetches (trace (run args w n).2)).*1.
Proof.
  apply (steps_preserve args w
           (fun s => robots_inv w s /\ Forall (allowed args w) (fetches (trace s)).*1)).
  - intros seed_url url d parent_url queue s r s' [Hinv Hall] Hbody.
    pose proof (crawl_seed_body_spec _ _ _ _ _ _ _ _ _ _ Hbody) as [_ Hspec].
    apply crawl_seed_body_robots in Hbody as (Hinv' & _ & Hf); [|done].
    split; [done|].
    destruct Hspec as [(_ & -> & _)|(_ & _ & _ & Hf' & _)]; [done|].
    rewrite Hf' in *. rewrite fmap_app. apply Forall_app. split; [done|].
    destruct Hf as [Hf|Hf]; [|by repeat constructor].
    apply (f_equal length) in Hf. rewrite length_app in Hf. simpl in Hf. lia.
  - split; [apply robots_inv_init | constructor].
Qed.

Lemma steps_cache_mono (args : Args) (w : World) (n : nat) (c : Control) (s : State) :
  robots_inv w s -> robots_cache s ⊆ robots_cache (steps args w n c s).2.
Proof.
  intros Hinv.
  assert (robots_inv w (steps args w n c s).2
          /\ robots_cache s ⊆ robots_cache (steps args w n c s).2) as [_ H]; [|done].
  apply (steps_preserve args w
           (fun s' => robots_inv w s' /\ robots_cache s ⊆ robots_cache s')); [|done].
  intros seed_url url d parent_url queue s1 r s2 [Hinv1 Hsub] Hbody.
  apply crawl_seed_body_robots in Hbody as (Hinv' & Hsub' & _); [|done].
  split; [done | by etrans].
Qed.

(** X7. At every point of a run the robots cache holds one entry per
    robots.txt that was requested, so no site's robots.txt is requested
    twice, and entries are never removed or replaced. *)
Theorem robots_read_once_per_site (args : Args) (w : World) (n : nat) :
  length (robots_reads (trace (run args w n).2)) = size (robots_cache (run args w n).2) /\
  (forall m, robots_cache (run args w n).2 ⊆ robots_cache (run args w (n + m)).2).
Proof.
  destruct (run_robots args w n) as [[Hok Hn] _]. split; [done|].
  intros m. unfold run. rewrite steps_add. apply steps_cache_mono.
  apply (run_robots args w n).
Qed.

(** X8. The crawler respects robots.txt: at every point of a run, every
    URL that was handed to [fetch_page] is allowed, for the crawler's user
    agent, by the robots.txt of its site whenever that file can be read. *)
Theorem fetched_urls_allowed (args : Args) (w : World) (n : nat) (url : string) (d : Z) :
  (url, d) ∈ fetches (trace (run args w n).2) -> allowed args w url.
Proof.
  intros Hin. destruct (run_robots args w n) as [_ Hall].
  rewrite Forall_forall in Hall. apply Hall.
  apply list_elem_of_fmap. by exists (url, d).
Qed.

Lemma fetched_urls_allowed_witness :
  ("http://h/public", 1) ∈ fetches (trace (run site_args robots_world 6).2) /\
  allowed site_args robots_world "http://h/public".
Proof.
  assert (("http://h/public", 1) ∈ fetches (trace (run site_args robots_world 6).2))
    as H by (vm_compute; set_solver).
  split; [exact H|].
  exact (fetched_urls_allowed site_args robots_world 6 "http://h/public" 1 H).
Defined.

Example robots_world_run :
  (run site_args robots_world 6).1 = Finished /\
  fetches (trace (run site_args robots_world 6).2)
  = [("http://h/", 0); ("http://h/public", 1)] /\
  dequeues (trace (run site_args robots_world 6).2)
  = ["http://h/"; "http://h/public"; "http://h/private/a"] /\
  robots_reads (trace (run site_args robots_world 6).2) = ["http://h/robots.txt"].
Proof. vm_compute. done. Qed.

(** X9. What [can_fetch] answers at any point of a run, by the outcome of
    [rp.read()] on the site's robots.txt.  When [rp.read()] raises,
    [can_fetch] fails open: it answers true for every URL of the site, and
    [None] is cached for the site.  When [rp.read()] returns, the parser
    is cached and [can_fetch] gives the parser's answer, also when that
    parser refuses every URL, as the one left by a server error does. *)
Theorem can_fetch_fail_open (args : Args) (w : World) (n : nat)
    (url base robots_url : string) :
  site_of w url = Some base ->
  join_url w base "/robots.txt" = Some robots_url ->
  exists s',
    robots_cache s' !! base = Some (robots_read w robots_url) /\
    can_fetch args w url (run args w n).2
    = (Ok (match robots_read w robots_url with
           | Some rp => rp (user_agent args) url
           | None => true
           end), s').
Proof.
  intros Hsite Hj. destruct (run_robots args w n) as [[Hok _] _].
  destruct (robots_cache (run args w n).2 !! base) as [v|] eqn:Hc.
  - destruct (Hok _ _ Hc) as (ru & Hj' & ->). rewrite Hj in Hj'. injection Hj' as <-.
    eexists. split; [exact Hc|]. by rewrite (can_fetch_hit args w url base _ _ Hsite Hc).
  - unfold site_of in Hsite. unfold can_fetch, get_robots_parser.
    destruct (parse_url w url) as [p|]; [|done]. injection Hsite as <-.
    unfold_monad. simpl. rewrite Hc, Hj. simpl.
    destruct (robots_read w robots_url); simpl;
      (eexists; split; [|reflexivity]); simpl; apply lookup_insert_eq.
Qed.

Lemma can_fetch_fail_open_witness :
  (exists s',
     robots_cache s' !! "http://h" = Some None /\
     can_fetch site_args site_world "http://h/b" (run site_args site_world 3).2
     = (Ok true, s')) /\
  (exists s',
     can_fetch site_args refusing_world "http://h/b" (run site_args refusing_world 3).2
     = (Ok false, s')).
Proof.
  split.
  - exact (can_fetch_fail_open site_args site_world 3 "http://h/b" "http://h"
             "http://h/robots.txt" ltac:(vm_compute; reflexivity)
             ltac:(vm_compute; reflexivity)).
  - destruct (can_fetch_fail_open site_args refusing_world 3 "http://h/b" "http://h"
                "http://h/robots.txt" ltac:(vm_compute; reflexivity)
                ltac:(vm_compute; reflexivity)) as (s' & _ & H).
    exists s'. exact H.
Defined.

(** ** Persistence, again: [save_raw] and [log_metadata] *)

Lemma span_until_fst (p : ascii -> bool) (s : string) :
  all_chars (fun c => negb (p c)) (span_until p s).1 = true.
Proof.
  induction s as [|a s IH]; simpl; [done|].
  destruct (p a) eqn:E; simpl; [done|].
  destruct (span_until p s) as [h r]. simpl in *. by rewrite E, IH.
Qed.

Lemma urlsplit_rest_netloc (cb cn : string -> bool) (sch url a nl p q f : string) :
  urlsplit_rest cb cn sch url = Some (a, nl, p, q, f) ->
  has_char "/" nl = false.
Proof.
  unfold urlsplit_rest, splitnetloc.
  pose proof (span_until_fst netloc_delim (drop 2 url)) as Hspan.
  destruct (startswith url "//");
    [destruct (span_until netloc_delim (drop 2 url)) as [nl' r]|];
    simpl in *.
  - destruct (negb _); [done|].
    destruct (partition "#" r) as [[? ?]|]; destruct (partition "?" _) as [[? ?]|];
      destruct (checknetloc cn nl'); intros; simplify_eq;
      by apply (all_chars_no_char (fun c => negb (netloc_delim c))).
  - destruct (partition "#" url) as [[? ?]|]; destruct (partition "?" _) as [[? ?]|];
      intros; by simplify_eq.
Qed.

(** The netloc that [urlparse] returns holds no slash. *)
Lemma parse_url_netloc_no_slash (w : World) (url : string) (parsed : ParseResult) :
  parse_url w url = Some parsed -> has_char "/" (netloc parsed) = false.
Proof.
  unfold parse_url, urlparse, urlparse_with.
  destruct (urlsplit _ _ url EmptyString) as [[[[[a nl] p] q] f]|] eqn:E; [|done].
  assert (has_char "/" nl = false) as Hnl.
  { unfold urlsplit in E. repeat case_match; by eapply urlsplit_rest_netloc. }
  destruct (_ && _); [destruct (splitparams p)|]; intros; by simplify_eq.
Qed.

Lemma replace_colon_no_slash (s : string) :
  has_char "/" s = false -> has_char "/" (replace_colon s) = false.
Proof.
  induction s as [|a s IH]; simpl; [done|].
  intros [Ha Hs]%orb_false_iff. rewrite (IH Hs), orb_false_r.
  destruct (Ascii.eqb_spec a ":"); [done | exact Ha].
Qed.

Lemma lower_no_slash (s : string) :
  has_char "/" s = false -> has_char "/" (lower s) = false.
Proof.
  induction s as [|a s IH]; simpl; [done|].
  intros [Ha Hs]%orb_false_iff. rewrite (IH Hs), orb_false_r.
  revert Ha. destruct a as [[] [] [] [] [] [] [] []]; vm_compute; congruence.
Qed.

Lemma rpartition_Some (c : ascii) (s h r : string) :
  rpartition c s = Some (h, r) -> s = h +:+ String c r /\ has_char c r = false.
Proof.
  revert h r. induction s as [|a s IH]; intros h r; simpl; [done|].
  destruct (rpartition c s) as [[h' r']|] eqn:E.
  - intros [= <- <-]. destruct (IH _ _ eq_refl) as [-> Hr]. done.
  - destruct (Ascii.eqb_spec a c) as [->|]; [|done].
    intros [= <- <-]. split; [done|].
    clear IH. induction s as [|b s IH]; simpl in *; [done|].
    destruct (rpartition c s) as [[? ?]|]; [done|].
    destruct (Ascii.eqb b c); [done|]. simpl. by apply IH.
Qed.

Lemma rpartition_None (c : ascii) (s : string) :
  rpartition c s = None -> has_char c s = false.
Proof.
  induction s as [|a s IH]; simpl; [done|].
  destruct (rpartition c s) as [[? ?]|]; [done|].
  destruct (Ascii.eqb a c); [done|]. simpl. intros _. by apply IH.
Qed.

(** [os.path.splitext(p)[1]] is empty or a dot followed by text without
    dot or slash. *)
Lemma splitext_ext_shape (p : string) :
  splitext_ext p = EmptyString \/
  exists t, splitext_ext p = String "." t /\
            has_char "/" t = false /\ has_char "." t = false.
Proof.
  unfold splitext_ext.
  assert (has_char "/" (match rpartition "/" p with
                        | Some (_, t) => t
                        | None => p
                        end) = false) as Hbase.
  { destruct (rpartition "/" p) as [[h t]|] eqn:E.
    - by apply rpartition_Some in E as [_ ?].
    - by apply rpartition_None. }
  destruct (rpartition "." _) as [[h t]|] eqn:E; [|by left].
  destruct (all_chars _ h); [by left|]. right. exists t.
  apply rpartition_Some in E as [E Ht]. rewrite E, has_char_app in Hbase.
  apply orb_false_iff in Hbase as [_ Hbase]. simpl in Hbase. done.
Qed.

(** X10. The name under which [save_raw] stores a page cannot leave its
    directory: it is the digest of the URL followed by a lower-case
    extension ([.bin] when the URL path has none) under
    [data/raw_files/], or the netloc with [:] replaced, [_], the digest and
    [.html] under the directory of the day, and it holds no slash as long
    as the digest holds none. *)
Theorem save_path_within_directory (w : World) (url : string) (is_file : bool)
    (filepath : string) :
  save_path w url is_file = Some filepath ->
  has_char "/" (sha1_hexdigest w url) = false ->
  exists dir name,
    filepath = dir +:+ name /\ has_char "/" name = false /\
    (is_file = true ->
     dir = "data/raw_files/" /\
     exists ext, name = sha1_hexdigest w url +:+ String "." ext /\
                 lower ext = ext /\ has_char "." ext = false) /\
    (is_file = false ->
     dir = "data/raw/" +:+ today w url +:+ "/" /\
     exists parsed, parse_url w url = Some parsed /\
       name = replace_colon (netloc parsed) +:+ "_" +:+ sha1_hexdigest w url
              +:+ ".html").
Proof.
  unfold save_path. intros H Hh.
  destruct (parse_url w url) as [parsed|] eqn:Hp; [|done].
  destruct is_file; injection H as <-.
  - exists "data/raw_files/".
    destruct (splitext_ext_shape (path parsed)) as [E|(t & E & Hs & Hd)]; rewrite E.
    + exists (sha1_hexdigest w url +:+ ".bin"). simpl.
      split; [done|]. split; [by rewrite has_char_app, Hh|].
      split; [|done]. intros _. split; [done|]. by exists "bin".
    + exists (sha1_hexdigest w url +:+ String "." (lower t)).
      change (is_empty (lower (String "." t))) with false. cbv iota.
      change (lower (String "." t)) with (String "." (lower t)).
      split; [done|]. split.
      { rewrite has_char_app, Hh. simpl. by apply lower_no_slash. }
      split; [|done]. intros _. split; [done|]. exists (lower t).
      split; [done|]. split; [apply lower_idem|].
      clear E Hs. induction t as [|a t IH]; simpl in *; [done|].
      apply orb_false_iff in Hd as [Ha Ht]. rewrite (IH Ht), orb_false_r.
      revert Ha. destruct a as [[] [] [] [] [] [] [] []]; vm_compute; congruence.
  - exists ("data/raw/" +:+ today w url +:+ "/").
    exists (replace_colon (netloc parsed) +:+ "_" +:+ sha1_hexdigest w url +:+ ".html").
    split; [by rewrite !string_app_assoc|]. split.
    { rewrite !has_char_app, Hh.
      rewrite (replace_colon_no_slash _ (parse_url_netloc_no_slash _ _ _ Hp)). done. }
    split; [done|]. intros _. split; [done|]. by exists parsed.
Qed.

Lemma save_path_within_directory_witness :
  save_path digest_world "http://h:8080/a/report.PDF?x=1" true
  = Some "data/raw_files/da39a3ee5e6b4b0d3255bfef95601890afd80709.pdf" /\
  has_char "/" (sha1_hexdigest digest_world "http://h:8080/a/report.PDF?x=1") = false /\
  exists dir name,
    save_path digest_world "http://h:8080/a/report.PDF?x=1" true
    = Some (dir +:+ name) /\
    has_char "/" name = false.
Proof.
  assert (save_path digest_world "http://h:8080/a/report.PDF?x=1" true
          = Some "data/raw_files/da39a3ee5e6b4b0d3255bfef95601890afd80709.pdf")
    as Hp by (vm_compute; reflexivity).
  split; [exact Hp|]. split; [reflexivity|].
  destruct (save_path_within_directory digest_world
              "http://h:8080/a/report.PDF?x=1" true _ Hp eq_refl)
    as (dir & name & H & Hn & _).
  exists dir, name. split; [by rewrite Hp, H | exact Hn].
Defined.

Lemma is_empty_app_cons (a : ascii) (s t : string) :
  is_empty (String a s +:+ t) = false.
Proof. reflexivity. Qed.

Lemma save_path_not_empty (w : World) (url : string) (is_file : bool) (p : string) :
  save_path w url is_file = Some p -> is_empty p = false.
Proof.
  unfold save_path. intros H.
  destruct (parse_url w url); [|done]. destruct is_file; simplify_eq; reflexivity.
Qed.

(** X11. What [save_raw] returns is where the content is.  A call that
    returns a non-empty path has stored exactly [content] under that path,
    which is the one [save_path] names.  A call that returns the empty path
    is one whose [open] or write failed: the file of the page is untouched
    when [open] failed, and holds what the failed write left otherwise.
    Either way no other file is touched, and the visited set, the page
    counter, the robots cache and the index are as before. *)
Theorem save_raw_round_trip (w : World) (content : bytes) (url : string)
    (is_file : bool) (s s' : State) (p : string) :
  save_raw w content url is_file s = (Ok p, s') ->
  (exists filepath,
     save_path w url is_file = Some filepath /\
     (forall q, q <> filepath -> files s' !! q = files s !! q) /\
     if is_empty p then
       write_ok w url = false /\
       files s' !! filepath = match failed_write w url with
                              | Some left_behind => Some left_behind
                              | None => files s !! filepath
                              end
     else
       p = filepath /\ write_ok w url = true /\ files s' !! p = Some content) /\
  visited_urls s' = visited_urls s /\ pages_crawled s' = pages_crawled s /\
  robots_cache s' = robots_cache s /\ index_jsonl s' = index_jsonl s.
Proof.
  unfold save_raw, make_dirs. intros H.
  destruct (save_path w url is_file) as [filepath|] eqn:Hp;
    [|destruct is_file; rewrite Hp in H; by monad_cases].
  pose proof (save_path_not_empty _ _ _ _ Hp) as Hne.
  assert (mkdir_ok w url = true) as Hm.
  { destruct (mkdir_ok w url); [done|]. destruct is_file; rewrite ?Hp in H;
      revert H; unfold_monad; simpl; done. }
  assert ((let* s0 := get_state in
           if write_ok w url
           then run* set_files (<[filepath := content]> (files s0)) in ret filepath
           else match failed_write w url with
                | Some left_behind =>
                    run* set_files (<[filepath := left_behind]> (files s0)) in
                    ret EmptyString
                | None => ret EmptyString
                end)
            (mkState (visited_urls s) (robots_cache s) (pages_crawled s) (files s)
               (index_jsonl s)
               ((trace s ++ [Mkdir url true]) ++ [WriteFile filepath (write_ok w url)]))
          = (Ok p, s')) as Hw.
  { destruct is_file; rewrite Hp in H; revert H; unfold_monad; simpl;
      rewrite Hm; simpl; done. }
  clear H. revert Hw. unfold_monad. simpl.
  destruct (write_ok w url) eqn:Hwo; simpl.
  - intros [= <- <-]. simpl. split; [|done]. exists filepath. split; [done|].
    split; [intros q Hq; by apply lookup_insert_ne|].
    rewrite Hne. split; [done|]. split; [done|]. apply lookup_insert_eq.
  - destruct (failed_write w url) as [left_behind|]; simpl; intros [= <- <-]; simpl;
      (split; [|done]); exists filepath; (split; [done|]).
    + split; [intros q Hq; by apply lookup_insert_ne|].
      split; [done|]. apply lookup_insert_eq.
    + done.
Qed.

Lemma save_raw_round_trip_witness :
  save_raw torn_write_world (body_of "%PDF-1.4") "http://h:8080/a/report.PDF?x=1"
    true init
  = (Ok EmptyString,
     (save_raw torn_write_world (body_of "%PDF-1.4")
        "http://h:8080/a/report.PDF?x=1" true init).2) /\
  exists filepath,
    save_path torn_write_world "http://h:8080/a/report.PDF?x=1" true = Some filepath /\
    files (save_raw torn_write_world (body_of "%PDF-1.4")
             "http://h:8080/a/report.PDF?x=1" true init).2 !! filepath
    = Some (body_of "%PDF").
Proof.
  assert (save_raw torn_write_world (body_of "%PDF-1.4")
            "http://h:8080/a/report.PDF?x=1" true init
          = (Ok EmptyString,
             (save_raw torn_write_world (body_of "%PDF-1.4")
                "http://h:8080/a/report.PDF?x=1" true init).2)) as H.
  { vm_compute. reflexivity. }
  split; [exact H|].
  destruct (save_raw_round_trip _ _ _ _ _ _ _ H) as [(filepath & Hp & _ & _ & Hf) _].
  exists filepath. split; [exact Hp | exact Hf].
Defined.

(** ** Options: [main] *)

Lemma Qlt_bool_false (x y : Q) : Qlt_bool x y = false <-> (y <= x)%Q.
Proof.
  unfold Qlt_bool. rewrite negb_false_iff. apply Qle_bool_iff.
Qed.

(** X12. [main] starts the crawler exactly when both delays are
    non-negative, [delay_min] does not exceed [delay_max], and the depth
    and the page budget are non-negative; otherwise it exits with status 1
    and the crawler does nothing. *)
Theorem main_validates (args : Args) (w : World) (n : nat) :
  (main args w n = Crawled (run args w n) <->
   (0 <= delay_min args)%Q /\ (delay_min args <= delay_max args)%Q /\
   0 <= depth args /\ 0 <= max_pages args) /\
  (forall r, main args w n = Crawled r -> r = run args w n) /\
  (forall code message, main args w n = Exit code message -> code = 1).
Proof.
  unfold main.
  destruct (Qlt_bool (delay_min args) 0) eqn:H1; simpl.
  { split; [|split; [done | by intros ?? [= <- _]]]. split; [done|].
    intros (H & _). apply Qlt_bool_false in H. congruence. }
  destruct (Qlt_bool (delay_max args) 0) eqn:H2; simpl.
  { apply Qlt_bool_false in H1.
    split; [|split; [done | by intros ?? [= <- _]]]. split; [done|].
    intros (_ & H & _).
    assert (Qlt_bool (delay_max args) 0 = false) as H'; [|congruence].
    apply Qlt_bool_false. by apply Qle_trans with (delay_min args). }
  destruct (Qlt_bool (delay_max args) (delay_min args)) eqn:H3.
  { split; [|split; [done | by intros ?? [= <- _]]]. split; [done|].
    intros (_ & H & _). apply Qlt_bool_false in H. congruence. }
  destruct (depth args <? 0) eqn:H4.
  { split; [|split; [done | by intros ?? [= <- _]]]. split; [done|]. lia. }
  destruct (max_pages args <? 0) eqn:H5.
  { split; [|split; [done | by intros ?? [= <- _]]]. split; [done|]. lia. }
  apply Qlt_bool_false in H1, H3.
  split; [|split; [congruence | done]]. split; [|done].
  intros _. repeat split; [done..|lia|lia].
Qed.

(** ** What one iteration leaves behind *)

Lemma delays_app (l k : list Event) : delays (l ++ k) = delays l ++ delays k.
Proof. apply omap_app. Qed.

Lemma fetch_page_no_delays (w : World) (url : string) :
  delays (fetch_page w url).1 = [].
Proof.
  unfold fetch_page. generalize (seq 0 3). intros attempts.
  induction attempts as [|k rest IH]; simpl; [done|].
  destruct (session_get w url k); simpl; try done;
    destruct (fetch_attempts w url rest) as [evs res]; simpl in *;
    destruct (k <? 2)%nat; simpl; done.
Qed.

(** What the three helpers of [crawl_seed] leave alone. *)
Lemma can_fetch_effects (args : Args) (w : World) (url : string) (s s' : State)
    (r : Result bool) :
  can_fetch args w url s = (r, s') ->
  delays (trace s') = delays (trace s) /\ files s' = files s /\
  index_jsonl s' = index_jsonl s /\ pages_crawled s' = pages_crawled s /\
  (forall e, r = Raise e -> e = ValueError).
Proof.
  unfold can_fetch, get_robots_parser. intros H.
  monad_cases; rewrite ?delays_app; simpl; rewrite ?app_nil_r;
    repeat split; congruence.
Qed.

Lemma save_raw_effects (w : World) (content : bytes) (url : string)
    (is_file : bool) (s s' : State) (r : Result string) :
  save_raw w content url is_file s = (r, s') ->
  delays (trace s') = delays (trace s) /\ index_jsonl s' = index_jsonl s /\
  pages_crawled s' = pages_crawled s /\
  match r with
  | Ok saved =>
      exists filepath,
        save_path w url is_file = Some filepath /\
        ((saved = filepath /\ files s' = <[filepath := content]> (files s)) \/
         (saved = EmptyString /\ files s' = files s) \/
         (saved = EmptyString /\
          exists left_behind,
            write_ok w url = false /\ failed_write w url = Some left_behind /\
            files s' = <[filepath := left_behind]> (files s)))
  | Raise OSError =>
      files s' = files s /\ mkdir_ok w url = false /\
      last (trace s') = Some (Mkdir url false)
  | Raise ValueError => files s' = files s
  end.
Proof.
  unfold save_raw, make_dirs. intros H.
  destruct (save_path w url is_file) as [filepath|] eqn:Hp.
  - destruct is_file; rewrite Hp in H; revert H; unfold_monad; simpl;
      destruct (mkdir_ok w url) eqn:Hm; simpl;
      try (intros [= <- <-]; simpl; rewrite delays_app, last_snoc; simpl;
           by rewrite app_nil_r);
      destruct (write_ok w url) eqn:Hw; simpl;
      try destruct (failed_write w url) as [left_behind|] eqn:Hf; simpl;
      intros [= <- <-]; simpl; rewrite !delays_app; simpl; rewrite !app_nil_r;
      (split; [done|]); (split; [done|]); (split; [done|]);
      exists filepath; (split; [done|]); eauto 10.
  - destruct is_file; rewrite Hp in H; revert H; unfold_monad; simpl;
      [by intros [= <- <-]|].
    destruct (mkdir_ok w url) eqn:Hm; simpl; intros [= <- <-]; simpl;
      rewrite delays_app; simpl; rewrite app_nil_r; [done|].
    by rewrite last_snoc.
Qed.

Lemma log_metadata_effects (w : World) (url : string) (status : Z)
    (ctype saved : string) (d : Z) (parent : string) (len : Z) (s s' : State)
    (r : Result unit) :
  log_metadata w url status ctype saved d parent len s = (r, s') ->
  r = Ok tt /\ delays (trace s') = delays (trace s) /\ files s' = files s /\
  pages_crawled s' = pages_crawled s /\
  (index_jsonl s' = index_jsonl s \/
   index_jsonl s'
   = index_jsonl s ++ [mkMetadata url status ctype saved (now_isoformat w url)
                         d parent len]).
Proof.
  unfold log_metadata. intros H.
  monad_cases; rewrite ?delays_app; simpl; rewrite ?app_nil_r; eauto 10.
Qed.

(** The sleeps, the files, the index and the exceptions of one iteration
    of [crawl_seed].  It sleeps at most once and only when a page has been
    counted; it writes at most one file, the one [save_path] names, which
    then holds the body of the page or what a failed write left of it; it
    appends at most one line to the
    index, for the URL it took off the queue, with the result of
    [fetch_page] and the path [save_raw] returned; and an [OSError] leaves
    it only right after a failed [mkdir]. *)
Lemma crawl_seed_body_effects (args : Args) (w : World) (seed_url url : string)
    (d : Z) (parent_url : string) (queue : list Entry) (s s' : State)
    (r : Result (list Entry)) :
  crawl_seed_body args w seed_url (url, d, parent_url) queue s = (r, s') ->
  (delays (trace s') = delays (trace s) \/
   (0 < pages_crawled s /\
    delays (trace s')
    = delays (trace s) ++ [random_uniform w url (delay_min args)
                             (delay_max args)])) /\
  (files s' = files s \/
   exists filepath evs content status ctype len written,
     fetch_page w url = (evs, (Some content, status, ctype, len)) /\
     save_path w url (has_file_extension url || negb (contains "text/html" ctype))
     = Some filepath /\
     pages_crawled s' = pages_crawled s + 1 /\
     files s' = <[filepath := written]> (files s) /\
     (written = content \/
      (write_ok w url = false /\ failed_write w url = Some written))) /\
  pages_crawled s <= pages_crawled s' /\
  (index_jsonl s' = index_jsonl s \/
   exists evs content status ctype len saved,
     fetch_page w url = (evs, (Some content, status, ctype, len)) /\
     (url ∉ visited_urls s) /\
     pages_crawled s' = pages_crawled s + 1 /\
     index_jsonl s'
     = index_jsonl s ++ [mkMetadata url status ctype saved (now_isoformat w url)
                           d parent_url len] /\
     (saved = EmptyString \/
      (save_path w url (has_file_extension url || negb (contains "text/html" ctype))
       = Some saved /\
       files s' !! saved = Some content))) /\
  (r = Raise OSError ->
   mkdir_ok w url = false /\ last (trace s') = Some (Mkdir url false)).
Proof.
  unfold crawl_seed_body, add_visited, polite_delay. intros H.
  monad_cases.
  all: repeat match goal with
         | Hf : fetch_page ?w ?u = (?l, _) |- _ =>
             let Hn := fresh "Hn" in
             pose proof (fetch_page_no_delays w u) as Hn; rewrite Hf in Hn;
             simpl in Hn; revert Hf
         | H : can_fetch _ _ _ _ = _ |- _ =>
             apply can_fetch_effects in H as (? & ? & ? & ? & ?)
         | H : save_raw _ _ _ _ _ = _ |- _ =>
             apply save_raw_effects in H as (? & ? & ? & ?)
         | H : log_metadata _ _ _ _ _ _ _ _ _ = _ |- _ =>
             apply log_metadata_effects in H as (? & ? & ? & ? & ?)
         | H : bool_decide _ = false |- _ => apply bool_decide_eq_false in H
         end.
  all: intros.
  all: simpl in *; rewrite ?delays_app in *; simpl in *; rewrite ?Hn, ?app_nil_r in *.
  all: repeat match goal with
         | H : (_ >? _) = true |- _ => apply Z.gtb_lt in H
         | H : (_ >? _) = false |- _ => rewrite Z.gtb_ltb in H; apply Z.ltb_ge in H
         | H : forall e0, Raise ?e = Raise e0 -> _ |- _ =>
             specialize (H e eq_refl); subst e
         | H : forall e0, Ok _ = Raise e0 -> _ |- _ => clear H
         | H : match ?e with ValueError => _ | OSError => _ end |- _ => destruct e
         | H : _ \/ _ |- _ => destruct H
         | H : _ /\ _ |- _ => destruct H
         | H : exists _, _ |- _ => destruct H
         end.
  all: subst.
  all: split; [first [left; congruence | right; split; [lia | congruence]]|].
  all: repeat match goal with
         | H : files _ = _ |- _ => rewrite H; clear H
         | H : index_jsonl _ = _ |- _ => rewrite H; clear H
         end.
  all: split;
    [first [by left
           | right; do 7 eexists; split; [reflexivity|];
             match goal with H : _ || _ = _ |- _ => rewrite H end;
             split; [eassumption|]; split; [lia|]; split; [reflexivity|];
             first [by left | by right]]|].
  all: split; [lia|].
  all: split; [|first [done | intros _; split; congruence]].
  all: try (by left).
  all: right; do 6 eexists; split; [reflexivity|]; split; [done|]; split; [lia|];
    (split; [reflexivity|]).
  all: first [by left | right].
  all: match goal with H : _ || _ = _ |- _ => rewrite H end.
  all: split; [done | apply lookup_insert_eq].
Qed.

(** ** The index along a run *)




(** ** Invariants of the control and the crawler together *)

Lemma steps_invariant (args : Args) (w : World) (I : Control -> State -> Prop) :
  (forall c s c' s', I c s -> step args w c s = (c', s') -> I c' s') ->
  forall n c s, I c s -> I (steps args w n c s).1 (steps args w n c s).2.
Proof.
  intros Hstep n. induction n as [|n IH]; intros c s HI; simpl; [done|].
  destruct (step args w c s) as [c' s'] eqn:Hs. apply IH. by eapply Hstep.
Qed.




(** ** The scope of a crawl *)

Lemma scope_inv_step (args : Args) (w : World) (c c' : Control) (s s' : State) :
  scope_inv w c s -> step args w c s = (c', s') -> scope_inv w c' s'.
Proof.
  intros [Hf Hc] Hstep.
  destruct c as [[|seed rest]|seed_url [|[[url d] parent_url] queue] rest| |e];
    simpl in Hstep; try (by simplify_eq).
  - destruct (budget_reached args s); simplify_eq; [done|].
    split; [done|]. split; [apply Hc, list_elem_of_here|].
    split; [intros x Hx; apply Hc; by right|].
    apply Forall_singleton. simpl. split; [by left|lia].
  - simplify_eq. split; [done|]. by destruct Hc as (_ & ? & _).
  - destruct Hc as (Hseed & Hrest & Hq).
    apply Forall_cons in Hq as [[Hurl Hd] Hq]. simpl in Hurl, Hd.
    destruct (budget_left args s); [|by simplify_eq].
    destruct (crawl_seed_body args w seed_url (url, d, parent_url) queue s)
      as [r s1] eqn:Hb.
    pose proof (crawl_seed_body_spec _ _ _ _ _ _ _ _ _ _ Hb) as [_ Hspec].
    assert (Forall (fun f : string * Z => in_scope_of w (read_seeds w) f.1 /\ 0 <= f.2)
              (fetches (trace s1))) as Hf1.
    { destruct Hspec as [(_ & -> & _)|(_ & _ & _ & -> & _)]; [done|].
      apply Forall_app. split; [done|]. apply Forall_singleton. simpl.
      split; [|done]. exists seed_url. split; [done|].
      destruct Hurl as [->|Hurl]; [by left | by right]. }
    destruct r as [queue'|e]; simplify_eq; [|done].
    split; [done|]. split; [done|]. split; [done|].
    apply crawl_seed_body_queue in Hb as [->|(_ & evs & content & status & ctype & len & _ & _ & _ & Hq')];
      [done|].
    apply enqueue_links_spec in Hq' as ->.
    apply Forall_app. split; [done|].
    apply Forall_forall. intros entry Hin.
    apply list_elem_of_In, in_map_iff in Hin as (link & <- & Hl).
    apply filter_In in Hl as [_ Hl]. apply in_scope_true in Hl as [_ Hl].
    unfold link_entry. simpl. split; [by right|].
    destruct (has_file_extension link); lia.
Qed.

(** X16. A crawl stays in the scope of its seeds: at every point of a run,
    every URL handed to [fetch_page] is a seed of the seeds file or a URL
    that [should_follow] accepts for one of them, and it was fetched at a
    depth that is not negative. *)
Theorem fetched_urls_in_scope (args : Args) (w : World) (n : nat)
    (url : string) (d : Z) :
  (url, d) ∈ fetches (trace (run args w n).2) ->
  in_scope_of w (read_seeds w) url /\ 0 <= d.
Proof.
  intros Hin.
  assert (scope_inv w (run args w n).1 (run args w n).2) as [Hf _].
  { apply (steps_invariant args w (scope_inv w)).
    - intros c s c' s'. apply scope_inv_step.
    - split; [constructor | done]. }
  rewrite Forall_forall in Hf. apply (Hf _ Hin).
Qed.

Lemma fetched_urls_in_scope_witness :
  in_scope_of site_world (read_seeds site_world) "http://h/c" /\ 0 <= 1.
Proof.
  apply (fetched_urls_in_scope site_args site_world 8 "http://h/c" 1).
  vm_compute. right. right. left.
Defined.

(** ** A spent budget *)

Lemma step_budget_spent (args : Args) (w : World) (c : Control) (s : State) :
  budget_left args s = false -> (step args w c s).2 = s.
Proof.
  intros Hb.
  destruct c as [[|seed rest]|seed_url [|[[url d] parent_url] queue] rest| |e];
    simpl; try done.
  - by destruct (budget_reached args s).
  - by rewrite Hb.
Qed.

(** X17. Once the page budget is spent the crawler is frozen: however far
    [run] is followed from there, from whatever point of its loops, the
    crawler object, the disk and the trace stay as they are, and with a
    positive budget [run] has returned after two more steps. *)
Theorem budget_spent_frozen (args : Args) (w : World) (n : nat) (c : Control)
    (s : State) :
  budget_left args s = false ->
  (steps args w n c s).2 = s /\
  (0 < max_pages args -> final (steps args w (2 + n) c s).1).
Proof.
  intros Hb. split.
  - revert c. induction n as [|n IH]; intros c; simpl; [done|].
    pose proof (step_budget_spent args w c s Hb) as Hs.
    destruct (step args w c s) as [c' s']. simpl in Hs. subst s'. apply IH.
  - intros Hpos.
    assert (budget_reached args s = true) as Hr.
    { unfold budget_left, budget_reached in *.
      apply orb_false_iff in Hb as [_ Hb]. apply andb_true_iff. lia. }
    assert (forall c0, final (steps args w 1 c0 s).1 \/
                       exists seeds, steps args w 1 c0 s = (AtSeeds seeds, s)) as H1.
    { intros c0.
      destruct c0 as [[|seed rest]|seed_url [|[[url d] parent_url] queue] rest| |e];
        simpl; rewrite ?Hr, ?Hb; unfold final; eauto. }
    change (2 + n)%nat with (1 + (1 + n))%nat. rewrite steps_add.
    destruct (H1 c) as [Hfin|[seeds Hs]].
    + destruct (steps args w 1 c s) as [c1 s1]. cbn [fst snd] in *.
      by rewrite (steps_final args w _ _ _ Hfin).
    + rewrite Hs. cbn [fst snd]. rewrite steps_add.
      assert (final (steps args w 1 (AtSeeds seeds) s).1) as Hfin.
      { destruct seeds; simpl; rewrite ?Hr; unfold final; eauto. }
      destruct (steps args w 1 (AtSeeds seeds) s) as [c1 s1]. cbn [fst snd] in *.
      by rewrite (steps_final args w _ _ _ Hfin).
Qed.

Lemma budget_spent_frozen_witness :
  (steps budget_args site_world 5
     (InSeed "http://h/"
        [("http://h/c", 1, "http://h/"); ("http://h/c", 2, "http://h/b")] [])
     (run budget_args site_world 3).2).2
  = (run budget_args site_world 3).2.
Proof.
  apply (budget_spent_frozen budget_args site_world 5).
  vm_compute. reflexivity.
Defined.

(** ** The files along a run *)

(** X18. The crawler writes nothing but pages: at every point of a run,
    every file on disk sits under the name [save_raw] gives to a URL
    fetched in the run, and holds the body [fetch_page] returned for that
    URL or, after a write that failed, what that write left of it. *)
Theorem files_hold_fetched_bodies (args : Args) (w : World) (n : nat)
    (p : string) (content : bytes) :
  files (run args w n).2 !! p = Some content ->
  stored w (run args w n).2 p content.
Proof.
  revert p content.
  apply (steps_preserve args w
           (fun s => forall p content, files s !! p = Some content -> stored w s p content)).
  - intros seed_url url d parent_url queue s r s' HP Hbody p content Hp.
    pose proof (crawl_seed_body_spec _ _ _ _ _ _ _ _ _ _ Hbody) as [_ Hspec].
    apply crawl_seed_body_effects in Hbody as (_ & Hfiles & _).
    assert (forall f, f ∈ fetches (trace s) -> f ∈ fetches (trace s')) as Hf.
    { destruct Hspec as [(_ & -> & _)|(_ & _ & _ & -> & _)]; [done|].
      intros f Hin. apply elem_of_app. by left. }
    assert (forall q c, stored w s q c -> stored w s' q c) as Hmono.
    { intros q c (u & du & evs & body & status & ctype & len & Hin & Hrest).
      exists u, du, evs, body, status, ctype, len. split; [by apply Hf | done]. }
    destruct Hfiles
      as [Heq|(filepath & evs & body & status & ctype & len & written
               & Hfetch & Hpath & Hpages & Heq & Hwritten)];
      rewrite Heq in Hp; [by apply Hmono, HP|].
    destruct (decide (filepath = p)) as [->|Hne].
    + rewrite lookup_insert_eq in Hp. simplify_eq.
      exists url, d, evs, body, status, ctype, len. split; [|done].
      destruct Hspec as [(_ & _ & _ & _ & Hsame)|(_ & _ & _ & -> & _)]; [lia|].
      apply elem_of_app. right. apply list_elem_of_here.
    + rewrite lookup_insert_ne in Hp by done. by apply Hmono, HP.
  - intros p content Hp. simpl in Hp. by rewrite lookup_empty in Hp.
Qed.

Lemma files_hold_fetched_bodies_witness :
  stored torn_write_world (run site_args torn_write_world 2).2
    "data/raw/20240101/h_8080_da39a3ee5e6b4b0d3255bfef95601890afd80709.html"
    (body_of "%PDF").
Proof.
  apply (files_hold_fetched_bodies site_args torn_write_world 2).
  vm_compute. reflexivity.
Defined.
